(** * voice-chat: the session event bridge of [VoiceChatApp]

    A shallow embedding of the log-reduction effect of [VoiceChatApp]
    (conversation extraction, function-call de-duplication and the
    fire-and-forget relay calls) and of [sendToBridge].

    Conventions.
    - A JavaScript string is a [string] holding its UTF-8 encoding; all
      literals of the source are ASCII except the wrench emoji of the dispatch
      announcement, which is written out as its four bytes.
    - A JavaScript object used as a record of properties is the list of its
      own properties in enumeration order (keys are pairwise distinct).
    - [log.date] is the number of milliseconds [log.date.getTime()] returns.
    - [useRef]'s [handledCalls.current] is a [gset string] threaded through
      the runs of the effect. *)

From Stdlib Require Import ZArith Ascii String DecimalString DecimalPos DecimalZ.
From stdpp Require Import base gmap sets list strings.

(** ** Strings *)

Module JsString.

(** Truthiness of a string: every string but the empty one. *)
Definition truthy (s : string) : bool :=
  match s with EmptyString => false | String _ _ => true end.

Definition byte_is (c : ascii) (n : N) : bool := N.eqb (N_of_ascii c) n.

Definition byte_in (c : ascii) (lo hi : N) : bool :=
  N.leb lo (N_of_ascii c) && N.leb (N_of_ascii c) hi.

Arguments byte_is c n%_N.
Arguments byte_in c (lo hi)%_N.

(** One-byte white space and line terminators: TAB, LF, VT, FF, CR, SP. *)
Definition ws1 (c : ascii) : bool := byte_in c 9 13 || byte_is c 32.

(** U+00A0, encoded C2 A0. *)
Definition ws2 (c1 c2 : ascii) : bool := byte_is c1 194 && byte_is c2 160.

(** U+1680, U+2000..U+200A, U+2028, U+2029, U+202F, U+205F, U+3000 and
    U+FEFF in their three-byte encodings. *)
Definition ws3 (c1 c2 c3 : ascii) : bool :=
  (byte_is c1 225 && byte_is c2 154 && byte_is c3 128)
  || (byte_is c1 226 && byte_is c2 128
      && (byte_in c3 128 138 || byte_in c3 168 169 || byte_is c3 175))
  || (byte_is c1 226 && byte_is c2 129 && byte_is c3 159)
  || (byte_is c1 227 && byte_is c2 128 && byte_is c3 128)
  || (byte_is c1 239 && byte_is c2 187 && byte_is c3 191).

(** [String.prototype.trimStart]: drop white-space characters from the
    front, one encoded character at a time. *)
Fixpoint trimStart (s : string) : string :=
  match s with
  | EmptyString => EmptyString
  | String c1 r1 =>
      if ws1 c1 then trimStart r1
      else
        match r1 with
        | EmptyString => s
        | String c2 r2 =>
            if ws2 c1 c2 then trimStart r2
            else
              match r2 with
              | EmptyString => s
              | String c3 r3 => if ws3 c1 c2 c3 then trimStart r3 else s
              end
        end
  end.

(** A string made of white space only (the empty string included). *)
Definition whitespace_only (s : string) : bool :=
  negb (truthy (trimStart s)).

(** [String.prototype.trimEnd]: keep everything up to the point where only
    white space follows. *)
Fixpoint trimEnd (s : string) : string :=
  match s with
  | EmptyString => EmptyString
  | String c r => if whitespace_only s then EmptyString else String c (trimEnd r)
  end.

(** [String.prototype.trim]. *)
Definition trim (s : string) : string := trimEnd (trimStart s).

(** The texts [trimStart] consumes whole: they split into the byte patterns
    it skips. *)
Inductive WhitespaceOnly : string -> Prop :=
| ws_empty : WhitespaceOnly EmptyString
| ws_one c r :
    ws1 c = true -> WhitespaceOnly r -> WhitespaceOnly (String c r)
| ws_two c1 c2 r :
    ws2 c1 c2 = true -> WhitespaceOnly r ->
    WhitespaceOnly (String c1 (String c2 r))
| ws_three c1 c2 c3 r :
    ws3 c1 c2 c3 = true -> WhitespaceOnly r ->
    WhitespaceOnly (String c1 (String c2 (String c3 r))).

(** The white-space and line-terminator code points of ECMAScript, which
    [trim] removes: TAB, LF, VT, FF, CR, SP, NBSP, U+1680, U+2000..U+200A,
    U+2028, U+2029, U+202F, U+205F, U+3000 and U+FEFF. *)
Definition whiteSpaceCodePoints : list N :=
  [9; 10; 11; 12; 13; 32; 160; 5760; 8192; 8193; 8194; 8195; 8196; 8197; 8198;
   8199; 8200; 8201; 8202; 8232; 8233; 8239; 8287; 12288; 65279]%N.

(** The UTF-8 encoding of a code point. *)
Definition utf8 (cp : N) : string :=
  if N.ltb cp 128 then String (ascii_of_N cp) EmptyString
  else if N.ltb cp 2048 then
    String (ascii_of_N (192 + N.div cp 64))
      (String (ascii_of_N (128 + N.modulo cp 64)) EmptyString)
  else if N.ltb cp 65536 then
    String (ascii_of_N (224 + N.div cp 4096))
      (String (ascii_of_N (128 + N.modulo (N.div cp 64) 64))
         (String (ascii_of_N (128 + N.modulo cp 64)) EmptyString))
  else
    String (ascii_of_N (240 + N.div cp 262144))
      (String (ascii_of_N (128 + N.modulo (N.div cp 4096) 64))
         (String (ascii_of_N (128 + N.modulo (N.div cp 64) 64))
            (String (ascii_of_N (128 + N.modulo cp 64)) EmptyString))).

Fixpoint encode (cps : list N) : string :=
  match cps with
  | [] => EmptyString
  | cp :: rest => utf8 cp +:+ encode rest
  end.

(** A text all of whose characters are white space, said by code points and
    without the tables [trim] works with: the encoding of a sequence of
    white-space code points (the empty sequence included). *)
Definition WhiteSpaceText (s : string) : Prop :=
  exists cps, Forall (fun cp => cp ∈ whiteSpaceCodePoints) cps /\ s = encode cps.

(** Template-literal rendering of an integral number. *)
Definition of_number (n : Z) : string := NilZero.string_of_int (Z.to_int n).

End JsString.

(** ** JSON values and [JSON.stringify] *)

Module Json.

(** The values [JSON.parse] can produce and [JSON.stringify] consumes here.
    Numbers are restricted to the integers. *)
#[warnings="-register-all"]
Inductive t : Type :=
| JNull
| JBool (b : bool)
| JNum (n : Z)
| JStr (s : string)
| JArr (items : list t)
| JObj (props : list (string * t)).

Definition hex_digit (n : N) : ascii :=
  ascii_of_N (if N.ltb n 10 then 48 + n else 87 + n)%N.

(** [QuoteJSONString] for one byte: the quote, the backslash and the control
    characters below U+0020 are escaped, everything else is copied. *)
Definition dquote : ascii := ascii_of_N 34.

Definition escape_byte (c : ascii) : string :=
  let n := N_of_ascii c in
  if N.eqb n 34 then String "\" (String dquote EmptyString)
  else if N.eqb n 92 then "\\"
  else if N.eqb n 8 then "\b"
  else if N.eqb n 9 then "\t"
  else if N.eqb n 10 then "\n"
  else if N.eqb n 12 then "\f"
  else if N.eqb n 13 then "\r"
  else if N.ltb n 32 then
    "\u00" +:+ String (hex_digit (N.div n 16)) (String (hex_digit (N.modulo n 16)) EmptyString)
  else String c EmptyString.

Fixpoint escape (s : string) : string :=
  match s with
  | EmptyString => EmptyString
  | String c r => escape_byte c +:+ escape r
  end.

Definition quote (s : string) : string :=
  String dquote (escape s +:+ String dquote EmptyString).

(** Members of an array or object, joined with commas. *)
Fixpoint join (parts : list string) : string :=
  match parts with
  | [] => EmptyString
  | [p] => p
  | p :: rest => p +:+ "," +:+ join rest
  end.

(** [JSON.stringify] of a value, without indentation. *)
Fixpoint stringify (v : t) : string :=
  match v with
  | JNull => "null"
  | JBool true => "true"
  | JBool false => "false"
  | JNum n => JsString.of_number n
  | JStr s => quote s
  | JArr items => "[" +:+ join (map stringify items) +:+ "]"
  | JObj props =>
      "{" +:+ join (map (fun kv => quote (fst kv) +:+ ":" +:+ stringify (snd kv)) props) +:+ "}"
  end.

(** [ToBoolean]. *)
Definition truthy (v : t) : bool :=
  match v with
  | JNull => false
  | JBool b => b
  | JNum n => negb (Z.eqb n 0)
  | JStr s => JsString.truthy s
  | JArr _ | JObj _ => true
  end.

(** First property named [k] of a property list. *)
Fixpoint lookup {A} (k : string) (props : list (string * A)) : option A :=
  match props with
  | [] => None
  | (k', v) :: rest => if String.eqb k k' then Some v else lookup k rest
  end.

End Json.

(** ** Data model *)

Inductive Role : Type := user | model.

Record ConversationEntry : Type := {
  role : Role;
  text : string;
  time : Z
}.

(** [Record<string, string>]: the own properties in enumeration order. *)
Definition Args : Type := list (string * string).

Record FunctionCall : Type := {
  name : string;
  args : option Args
}.

Module Part.
(** One part of a turn: [{ text?, functionCall? }]. *)
Record t : Type := mk {
  text : option string;
  functionCall : option FunctionCall
}.
End Part.

Record ModelTurn : Type := { parts : option (list Part.t) }.

Record ServerContent : Type := { modelTurn : option ModelTurn }.

(** An object-typed [log.message]; [None] is a key that is not in the object
    (or, for [serverContent], one that holds [undefined]). *)
Record MessageObject : Type := {
  turns : option (list Part.t);
  turnComplete : option bool;
  serverContent : option ServerContent
}.

Inductive Message : Type :=
| MString (s : string)
| MObject (o : MessageObject).

Record StreamingLog : Type := {
  date : Z;
  message : Message
}.

(** ** The relay *)

Record HttpRequest : Type := {
  url : string;
  method : string;
  headers : list (string * string);
  body : string
}.

(** What the relay endpoint does with one request. [fetch] reports a failure
    by rejecting the promise it returns, as the platform function does. *)
Inductive RelayBehaviour : Type :=
| TransportError (e : string)   (* [fetch] rejects with [e] *)
| MalformedBody (e : string)    (* [resp.json()] rejects with [e] *)
| Responds (data : Json.t).     (* [resp.json()] resolves with [data] *)

(** The relay endpoint: its behaviour for every request. *)
Definition Relay : Type := HttpRequest -> RelayBehaviour.

(** Result of a computation inside [try { ... }]. *)
Inductive Try (A : Type) : Type :=
| Ok (a : A)
| Throw (e : string).

Arguments Ok {A} a.
Arguments Throw {A} e.

Instance Try_bind : MBind Try := fun A B k m =>
  match m with
  | Ok a => k a
  | Throw e => Throw e
  end.

Instance Try_ret : MRet Try := fun A a => Ok a.

Record BridgeResult : Type := {
  success : bool;
  resultMessage : Json.t
}.

Definition newline : string := String (ascii_of_N 10) EmptyString.

(** U+1F527, the wrench that opens a dispatch announcement. *)
Definition wrench : string :=
  String (ascii_of_N 240) (String (ascii_of_N 159)
    (String (ascii_of_N 148) (String (ascii_of_N 167) EmptyString))).

Section VoiceChatApp.

(** [REACT_APP_VOICE_BRIDGE_URL] and [REACT_APP_VOICE_BRIDGE_SECRET], or
    their defaults. *)
Variables (VOICE_BRIDGE_URL VOICE_BRIDGE_SECRET : string).

Definition jsonHeaders : list (string * string) :=
  [("Content-Type", "application/json")].

Definition paramsJson (params : Args) : Json.t :=
  Json.JObj (map (fun kv => (fst kv, Json.JStr (snd kv))) params).

(** The request [sendToBridge] makes. *)
Definition actionRequest (action : string) (params : Args) : HttpRequest :=
  {| url := VOICE_BRIDGE_URL +:+ "/action";
     method := "POST";
     headers := jsonHeaders;
     body := Json.stringify
               (Json.JObj [("secret", Json.JStr VOICE_BRIDGE_SECRET);
                           ("action", Json.JStr action);
                           ("params", paramsJson params)]) |}.

(** The request of the [send_message] branch; a [command] that is
    [undefined] is left out by [JSON.stringify]. *)
Definition commandRequest (params : Args) : HttpRequest :=
  {| url := VOICE_BRIDGE_URL +:+ "/command";
     method := "POST";
     headers := jsonHeaders;
     body := Json.stringify
               (Json.JObj (("secret", Json.JStr VOICE_BRIDGE_SECRET)
                           :: match Json.lookup "message" params with
                              | Some m => [("command", Json.JStr m)]
                              | None => []
                              end)) |}.

(** [await fetch(...)] followed by [await resp.json()]. *)
Definition fetchJson (relay : Relay) (req : HttpRequest) : Try Json.t :=
  match relay req with
  | TransportError e => Throw e
  | MalformedBody e => Throw e
  | Responds data => Ok data
  end.

Definition nullTypeError (prop : string) : string :=
  "TypeError: Cannot read properties of null (reading '" +:+ prop +:+ "')".

(** [data.prop]: reading a property of [null] throws, reading one a value
    does not have gives [undefined]. *)
Definition getProp (data : Json.t) (prop : string) : Try (option Json.t) :=
  match data with
  | Json.JNull => Throw (nullTypeError prop)
  | Json.JObj props => Ok (Json.lookup prop props)
  | _ => Ok None
  end.

(** [v === 'sent'] *)
Definition isSent (v : option Json.t) : bool :=
  match v with
  | Some (Json.JStr s) => String.eqb s "sent"
  | _ => false
  end.

(** [v || 'sent'] *)
Definition orSent (v : option Json.t) : Json.t :=
  match v with
  | Some m => if Json.truthy m then m else Json.JStr "sent"
  | None => Json.JStr "sent"
  end.

(** [sendToBridge(action, params)] against the endpoint [relay]. *)
Definition sendToBridge (relay : Relay) (action : string) (params : Args)
  : BridgeResult :=
  match (data ← fetchJson relay (actionRequest action params);
         status ← getProp data "status";
         msg ← getProp data "message";
         mret {| success := isSent status; resultMessage := orSent msg |}) with
  | Ok r => r
  | Throw e =>
      {| success := false; resultMessage := Json.JStr ("Bridge error: " +:+ e) |}
  end.

(** A relay call the effect starts and does not wait for. *)
Inductive RelayCall : Type :=
| FetchCommand (req : HttpRequest)
| SendToBridge (action : string) (params : Args).

(** The request a relay call puts on the wire. *)
Definition requestOf (c : RelayCall) : HttpRequest :=
  match c with
  | FetchCommand req => req
  | SendToBridge action params => actionRequest action params
  end.

(** What a detached promise settles to. *)
Inductive Settled : Type :=
| SUndefined                      (* the value [.catch(console.error)] leaves *)
| SResponse (b : RelayBehaviour)  (* a [Response] nobody reads *)
| SResult (r : BridgeResult).

(** Settling [call.catch(console.error)]: the value of the promise and the
    lines written to the console. *)
Definition settle (relay : Relay) (c : RelayCall) : Settled * list string :=
  match c with
  | FetchCommand req =>
      match relay req with
      | TransportError e => (SUndefined, [e])
      | b => (SResponse b, [])
      end
  | SendToBridge action params => (SResult (sendToBridge relay action params), [])
  end.

(** *** The log-reduction effect *)

(** What one run of the effect has built so far: the local [entries], the
    contents of [handledCalls.current], and the relay calls started, each
    with the [callId] it was started for. *)
Record Run : Type := {
  entries : list ConversationEntry;
  handledCalls : gset string;
  started : list (string * RelayCall)
}.

(** [part.text && part.text.trim() && part.text !== "\n"] *)
Definition isContent (t : option string) : bool :=
  match t with
  | Some s =>
      JsString.truthy s && JsString.truthy (JsString.trim s)
      && negb (String.eqb s newline)
  | None => false
  end.

Definition textEntry (r : Role) (log_date : Z) (s : string) : ConversationEntry :=
  {| role := r; text := s; time := log_date |}.

(** The guarded [entries.push({ role, text: part.text, time: log.date })]. *)
Definition pushText (r : Role) (log_date : Z) (part : Part.t) (acc : Run) : Run :=
  match Part.text part with
  | Some s =>
      if isContent (Some s)
      then {| entries := entries acc ++ [textEntry r log_date s];
              handledCalls := handledCalls acc;
              started := started acc |}
      else acc
  | None => acc
  end.

(** [JSON.stringify(fc.args)] inside a template literal: an absent [args]
    renders as [undefined]. *)
Definition argsKey (a : option Args) : string :=
  match a with
  | Some props => Json.stringify (paramsJson props)
  | None => "undefined"
  end.

(** [fc.args || {}] *)
Definition argsOrEmpty (a : option Args) : Args :=
  match a with
  | Some props => props
  | None => []
  end.

Definition callId (fc : FunctionCall) (log_date : Z) : string :=
  name fc +:+ "-" +:+ argsKey (args fc) +:+ "-" +:+ JsString.of_number log_date.

Definition announcement (fc : FunctionCall) (log_date : Z) : ConversationEntry :=
  {| role := model;
     text := wrench +:+ " Sending to OpenClaw: " +:+ name fc +:+ "("
             +:+ Json.stringify (paramsJson (argsOrEmpty (args fc))) +:+ ")";
     time := log_date |}.

(** The fire-and-forget call for a function call seen for the first time. *)
Definition dispatch (fc : FunctionCall) : RelayCall :=
  let action := if String.eqb (name fc) "send_message" then "send_message" else name fc in
  let params := argsOrEmpty (args fc) in
  if String.eqb action "send_message"
  then FetchCommand (commandRequest params)
  else SendToBridge action params.

(** [if (part.functionCall) { ... }] *)
Definition handleFunctionCall (log_date : Z) (part : Part.t) (acc : Run) : Run :=
  match Part.functionCall part with
  | Some fc =>
      let id := callId fc log_date in
      if decide (id ∈ handledCalls acc) then acc
      else {| entries := entries acc ++ [announcement fc log_date];
              handledCalls := {[id]} ∪ handledCalls acc;
              started := started acc ++ [(id, dispatch fc)] |}
  | None => acc
  end.

(** Body of [for (const part of turns)]. *)
Definition userPart (log_date : Z) (acc : Run) (part : Part.t) : Run :=
  pushText user log_date part acc.

(** Body of [for (const part of sc.modelTurn.parts)]. *)
Definition serverPart (log_date : Z) (acc : Run) (part : Part.t) : Run :=
  handleFunctionCall log_date part (pushText model log_date part acc).

(** [sc?.modelTurn?.parts] *)
Definition modelParts (o : MessageObject) : option (list Part.t) :=
  sc ← serverContent o; mt ← modelTurn sc; parts mt.

(** Body of [for (const log of logs)]. *)
Definition logStep (acc : Run) (log : StreamingLog) : Run :=
  match message log with
  | MString _ => acc
  | MObject o =>
      let acc1 :=
        match turns o, turnComplete o with
        | Some ts, Some _ => fold_left (userPart (date log)) ts acc
        | _, _ => acc
        end in
      match modelParts o with
      | Some ps => fold_left (serverPart (date log)) ps acc1
      | None => acc1
      end
  end.

(** One run of the effect over [logs], with [handledCalls.current] holding
    [handled] when it starts. *)
Definition logEffect (handled : gset string) (logs : list StreamingLog) : Run :=
  fold_left logStep logs {| entries := []; handledCalls := handled; started := [] |}.

(** The effect of the earlier [App.tsx], which knows no function calls: the
    body of its loop over the logs, and the effect itself. *)
Definition logStepV1 (acc : Run) (log : StreamingLog) : Run :=
  match message log with
  | MString _ => acc
  | MObject o =>
      let acc1 :=
        match turns o, turnComplete o with
        | Some ts, Some _ => fold_left (userPart (date log)) ts acc
        | _, _ => acc
        end in
      match modelParts o with
      | Some ps => fold_left (fun a p => pushText model (date log) p a) ps acc1
      | None => acc1
      end
  end.

Definition logEffectV1 (logs : list StreamingLog) : list ConversationEntry :=
  entries
    (fold_left logStepV1 logs {| entries := []; handledCalls := ∅; started := [] |}).

(** *** The component over time *)

Record AppState : Type := {
  handledCallsRef : gset string;            (* [handledCalls.current] *)
  conversation : list ConversationEntry;    (* the [conversation] state *)
  inflight : list RelayCall;                (* promises not yet settled *)
  relayLog : list (string * RelayCall);     (* every relay call started *)
  console : list string                     (* [console.error] output *)
}.

(** The component as mounted. *)
Definition mounted : AppState :=
  {| handledCallsRef := ∅; conversation := []; inflight := [];
     relayLog := []; console := [] |}.

Inductive Step : Type :=
| RunEffect (logs : list StreamingLog)    (* [logs] changed: the effect runs *)
| SettleCall (i : nat) (relay : Relay).    (* in-flight call [i] settles *)

Definition step (s : AppState) (st : Step) : AppState :=
  match st with
  | RunEffect logs =>
      let r := logEffect (handledCallsRef s) logs in
      {| handledCallsRef := handledCalls r;
         conversation := entries r;
         inflight := inflight s ++ map snd (started r);
         relayLog := relayLog s ++ started r;
         console := console s |}
  | SettleCall i relay =>
      match inflight s !! i with
      | Some c =>
          {| handledCallsRef := handledCallsRef s;
             conversation := conversation s;
             inflight := delete i (inflight s);
             relayLog := relayLog s;
             console := console s ++ snd (settle relay c) |}
      | None => s
      end
  end.

Definition exec (s : AppState) (steps : list Step) : AppState :=
  fold_left step steps s.

(** How many relay calls were started for [id]. *)
Definition relayCount (id : string) (l : list (string * RelayCall)) : nat :=
  length (filter (fun c => c.1 = id) l).

(** *** Notions used to state the properties *)

(** A part text that is absent, empty, white space only, or a bare newline. *)
Definition blank (t : option string) : Prop :=
  match t with
  | None => True
  | Some s => s = EmptyString \/ JsString.WhiteSpaceText s \/ s = newline
  end.

(** The parts of the user turn a log entry carries (a message with the keys
    [turns] and [turnComplete]), and those of its model turn. *)
Definition userTurnParts (log : StreamingLog) : list Part.t :=
  match message log with
  | MString _ => []
  | MObject o =>
      match turns o, turnComplete o with
      | Some ts, Some _ => ts
      | _, _ => []
      end
  end.

Definition modelTurnParts (log : StreamingLog) : list Part.t :=
  match message log with
  | MString _ => []
  | MObject o => default [] (modelParts o)
  end.

(** The function calls carried by the model-turn parts of a log entry, in
    part order. *)
Definition functionCalls (log : StreamingLog) : list FunctionCall :=
  match message log with
  | MString _ => []
  | MObject o =>
      match modelParts o with
      | Some ps => omap Part.functionCall ps
      | None => []
      end
  end.

(** The idempotency keys occurring in a log, in log order. *)
Definition callIds (logs : list StreamingLog) : list string :=
  log ← logs; (fun fc => callId fc (date log)) <$> functionCalls log.

(** A run that starts with the handled set of [acc] and nothing else. *)
Definition restart (acc : Run) : Run :=
  {| entries := []; handledCalls := handledCalls acc; started := [] |}.

(** [r] with [es] and [cs] put in front of its entries and relay calls. *)
Definition prepend (es : list ConversationEntry) (cs : list (string * RelayCall))
    (r : Run) : Run :=
  {| entries := es ++ entries r; handledCalls := handledCalls r;
     started := cs ++ started r |}.

(** The entries the log entry at position [i] contributes to a run over
    [logs] that starts with [handled]. *)
Definition entriesAt (handled : gset string) (logs : list StreamingLog) (i : nat)
  : list ConversationEntry :=
  match logs !! i with
  | Some log =>
      entries (logStep (restart (logEffect handled (take i logs))) log)
  | None => []
  end.

(** A run that started with [handled0] has started one relay call for each
    key it added to the handled set, and none for any other key. *)
Definition startedOncePerNewKey (handled0 : gset string) (r : Run) : Prop :=
  handled0 ⊆ handledCalls r
  ∧ ∀ id, relayCount id (started r)
          = if decide (id ∈ handledCalls r ∖ handled0) then 1%nat else 0%nat.

End VoiceChatApp.

(** ** Reading a key text

    Where a text stands inside or outside a JSON string literal; used to show
    that a key determines its parts. *)

Inductive Quoting : Type := Outside | Inside | Escaped.

Definition dash : ascii := ascii_of_N 45.
Definition backslash : ascii := ascii_of_N 92.

(** One character of a scan. Outside a string a backslash or a dash is
    refused, and so is a dash right after a backslash. *)
Definition quoteStep (q : Quoting) (c : ascii) : option Quoting :=
  match q with
  | Outside =>
      if Ascii.eqb c Json.dquote then Some Inside
      else if Ascii.eqb c backslash || Ascii.eqb c dash then None
      else Some Outside
  | Inside =>
      if Ascii.eqb c Json.dquote then Some Outside
      else if Ascii.eqb c backslash then Some Escaped
      else Some Inside
  | Escaped => if Ascii.eqb c dash then None else Some Inside
  end.

Fixpoint quoteScan (q : Quoting) (s : string) : option Quoting :=
  match s with
  | EmptyString => Some q
  | String c r => q' ← quoteStep q c; quoteScan q' r
  end.

(** One member of the object text of an argument record. *)
Definition member (kv : string * string) : string :=
  Json.quote kv.1 +:+ ":" +:+ Json.quote kv.2.

(** ** Reading the log and JSON texts back

    Notions used to state what the effects derive and that a key determines
    its function call. *)

(** The texts of the parts that count as content, each with the role its
    entry gets. *)
Definition contentTexts (r : Role) (ps : list Part.t) : list (Role * string) :=
  omap (fun p =>
          match Part.text p with
          | Some s => if isContent (Some s) then Some (r, s) else None
          | None => None
          end) ps.

(** The content texts of a log entry: those of the user turn, then those of
    the model turn. *)
Definition textParts (log : StreamingLog) : list (Role * string) :=
  match message log with
  | MString _ => []
  | MObject o =>
      match turns o, turnComplete o with
      | Some ts, Some _ => contentTexts user ts
      | _, _ => []
      end
      ++ match modelParts o with
         | Some ps => contentTexts model ps
         | None => []
         end
  end.

Definition textEntries (log : StreamingLog) : list ConversationEntry :=
  (fun rs => textEntry rs.1 (date log) rs.2) <$> textParts log.

(** The value of a lower-case hexadecimal digit. *)
Definition hexValue (c : ascii) : option N :=
  let n := N_of_ascii c in
  if N.leb 48 n && N.leb n 57 then Some (n - 48)%N
  else if N.leb 97 n && N.leb n 102 then Some (n - 87)%N
  else None.

(** The next character of the body of a JSON string literal and the text
    after it, as [JSON.parse] reads them; [None] at the closing quote and on
    a text [JSON.stringify] does not write. *)
Definition unescape1 (s : string) : option (ascii * string) :=
  match s with
  | EmptyString => None
  | String c r =>
      if Ascii.eqb c Json.dquote then None
      else if Ascii.eqb c backslash then
        match r with
        | String e r' =>
            if Ascii.eqb e Json.dquote then Some (Json.dquote, r')
            else if Ascii.eqb e backslash then Some (backslash, r')
            else if Ascii.eqb e "b" then Some (ascii_of_N 8, r')
            else if Ascii.eqb e "t" then Some (ascii_of_N 9, r')
            else if Ascii.eqb e "n" then Some (ascii_of_N 10, r')
            else if Ascii.eqb e "f" then Some (ascii_of_N 12, r')
            else if Ascii.eqb e "r" then Some (ascii_of_N 13, r')
            else if Ascii.eqb e "u" then
              match r' with
              | String h1 (String h2 (String h3 (String h4 r''))) =>
                  match hexValue h1, hexValue h2, hexValue h3, hexValue h4 with
                  | Some 0%N, Some 0%N, Some v3, Some v4 =>
                      Some (ascii_of_N (16 * v3 + v4), r'')
                  | _, _, _, _ => None
                  end
              | _ => None
              end
            else None
        | EmptyString => None
        end
      else Some (c, r)
  end.

(** ** Concrete logs *)

Module Scenario.

(** The defaults of [VOICE_BRIDGE_URL] and [VOICE_BRIDGE_SECRET]. *)
Definition bridgeUrl : string := "http://100.69.233.8:5052".
Definition bridgeSecret : string := "voice-bridge-2026".

Definition userTurn (d : Z) (ps : list Part.t) : StreamingLog :=
  {| date := d;
     message := MObject {| turns := Some ps; turnComplete := Some true;
                           serverContent := None |} |}.

Definition serverTurn (d : Z) (ps : list Part.t) : StreamingLog :=
  {| date := d;
     message := MObject {| turns := None; turnComplete := None;
                           serverContent :=
                             Some {| modelTurn := Some {| parts := Some ps |} |} |} |}.

Definition textPart (s : string) : Part.t := Part.mk (Some s) None.
Definition callPart (fc : FunctionCall) : Part.t := Part.mk None (Some fc).

Definition t0 : Z := 1770000000000.

Definition createTask : FunctionCall :=
  {| name := "create_task"; args := Some [("title", "Buy milk")] |}.

Definition statusPlease : FunctionCall :=
  {| name := "send_message"; args := Some [("message", "status please")] |}.

(** Two identical server turns carrying the same function call. *)
Definition twice : list StreamingLog :=
  [serverTurn t0 [callPart createTask]; serverTurn t0 [callPart createTask]].

(** An endpoint that cannot be reached, and one that answers every request
    with a refusal. *)
Definition unreachable : Relay :=
  fun _ => TransportError "TypeError: Failed to fetch".
Definition refuses : Relay :=
  fun _ => Responds (Json.JObj [("status", Json.JStr "error")]).

(** The same two properties, enumerated in either order. *)
Definition searchAB : FunctionCall :=
  {| name := "search"; args := Some [("query", "milk"); ("scope", "vault")] |}.
Definition searchBA : FunctionCall :=
  {| name := "search"; args := Some [("scope", "vault"); ("query", "milk")] |}.

End Scenario.

(** ** [saveTranscript] and the conversation view *)

Module Transcript.

(** [s.replace(/:/g, "-")] *)
Fixpoint replaceColons (s : string) : string :=
  match s with
  | EmptyString => EmptyString
  | String c r =>
      String (if Ascii.eqb c ":" then "-"%char else c) (replaceColons r)
  end.

(** [s.slice(0, n)] of a text of one-byte characters, as the ISO rendering
    of a date is. *)
Fixpoint sliceTo (n : nat) (s : string) : string :=
  match n, s with
  | S n', String c r => String c (sliceTo n' r)
  | _, _ => EmptyString
  end.

(** [lines.join("\n")] *)
Fixpoint joinLines (lines : list string) : string :=
  match lines with
  | [] => EmptyString
  | [l] => l
  | l :: rest => l +:+ newline +:+ joinLines rest
  end.

(** What the hidden anchor is given before it is clicked. *)
Record Download : Type := {
  blobType : string;
  download : string;
  content : string
}.

(** One call of [saveTranscript]: the values [setSaving] received, in order,
    and the file handed to the browser, if any. *)
Record Saved : Type := {
  savingSet : list bool;
  downloaded : option Download
}.

Section SaveTranscript.

(** [Date.prototype.toISOString] and [Date.prototype.toLocaleTimeString] of
    the browser, on a date given in milliseconds. *)
Variables (toISOString toLocaleTimeString : Z -> string).

Definition speaker (r : Role) : string :=
  match r with
  | user => "**Dara**"
  | model => "**Assistant**"
  end.

(** [`${speaker} (${time}): ${entry.text}`] *)
Definition entryLine (entry : ConversationEntry) : string :=
  speaker (role entry) +:+ " (" +:+ toLocaleTimeString (time entry) +:+ "): "
  +:+ text entry.

(** [conversation[0]?.time.toISOString() || "unknown"] *)
Definition startedAt (conversation : list ConversationEntry) : string :=
  match conversation with
  | first :: _ =>
      if JsString.truthy (toISOString (time first))
      then toISOString (time first) else "unknown"
  | [] => "unknown"
  end.

(** The six lines [lines] starts with. *)
Definition headerLines (now : Z) (conversation : list ConversationEntry)
  : list string :=
  ["# Voice Chat Transcript - " +:+ sliceTo 10 (toISOString now);
   EmptyString;
   "Started: " +:+ startedAt conversation;
   EmptyString;
   "---";
   EmptyString].

(** [lines] after the loop over the conversation. *)
Definition transcriptLines (now : Z) (conversation : list ConversationEntry)
  : list string :=
  fold_left (fun lines entry => (lines ++ [entryLine entry]) ++ [EmptyString])
    conversation (headerLines now conversation).

(** [now.toISOString().replace(/:/g, "-").slice(0, 16)] *)
Definition ts (now : Z) : string :=
  sliceTo 16 (replaceColons (toISOString now)).

(** [saveTranscript], called at time [now]. *)
Definition saveTranscript (now : Z) (conversation : list ConversationEntry)
  : Saved :=
  match conversation with
  | [] => {| savingSet := []; downloaded := None |}
  | _ :: _ =>
      {| savingSet := [true; false];
         downloaded :=
           Some {| blobType := "text/markdown";
                   download := ts now +:+ ".md";
                   content := joinLines (transcriptLines now conversation) |} |}
  end.


End SaveTranscript.

End Transcript.

(** ** [PasswordGate] *)

Module PasswordGate.

Definition PASS_HASH : string :=
  "b6b9fbdcb79928b3808cc932fbbee0a4abe8ceb0470fa53e69e9aef2c3a31890".

(** [b.toString(16)] for an element of a [Uint8Array]. *)
Definition toString16 (b : ascii) : string :=
  let n := N_of_ascii b in
  if N.ltb n 16 then String (Json.hex_digit n) EmptyString
  else String (Json.hex_digit (N.div n 16))
         (String (Json.hex_digit (N.modulo n 16)) EmptyString).

(** [s.padStart(targetLength, fill)] with a one-character [fill]. *)
Definition padStart (targetLength : nat) (fill : ascii) (s : string) : string :=
  string_of_list_ascii (repeat fill (targetLength - String.length s)) +:+ s.

(** [hashArray.map(b => b.toString(16).padStart(2, '0')).join('')] *)
Fixpoint hex (hashArray : list ascii) : string :=
  match hashArray with
  | [] => EmptyString
  | b :: rest => padStart 2 "0" (toString16 b) +:+ hex rest
  end.

Record Gate : Type := {
  authenticated : bool;
  password : string;
  error : bool
}.

(** The component, the session storage it reads and writes, and the number
    of [setTimeout] callbacks not yet run. *)
Record World : Type := {
  gate : Gate;
  sessionStorage : gmap string string;
  timers : nat
}.

Inductive Event : Type :=
| Change (value : string)    (* the input changes *)
| Submit                     (* the form is submitted *)
| Timeout.                   (* a pending [setTimeout] callback runs *)

Inductive View : Type :=
| Children
| Form (wrongPassword : bool).

Section Gate.

(** [crypto.subtle.digest('SHA-256', _)] on the UTF-8 bytes of a message. *)
Variable digest : string -> list ascii.

Definition sha256 (message : string) : string := hex (digest message).

(** The state the component mounts with. *)
Definition mount (storage : gmap string string) : World :=
  {| gate := {| authenticated :=
                  bool_decide (storage !! "vc-auth" = Some "true");
                password := EmptyString;
                error := false |};
     sessionStorage := storage;
     timers := 0 |}.

Definition handleSubmit (w : World) : World :=
  let hash := sha256 (password (gate w)) in
  if String.eqb hash PASS_HASH
  then {| gate := {| authenticated := true;
                     password := password (gate w);
                     error := error (gate w) |};
          sessionStorage := <["vc-auth" := "true"]> (sessionStorage w);
          timers := timers w |}
  else {| gate := {| authenticated := authenticated (gate w);
                     password := password (gate w);
                     error := true |};
          sessionStorage := sessionStorage w;
          timers := S (timers w) |}.

Definition step (w : World) (e : Event) : World :=
  match e with
  | Change value =>
      {| gate := {| authenticated := authenticated (gate w);
                    password := value;
                    error := error (gate w) |};
         sessionStorage := sessionStorage w;
         timers := timers w |}
  | Submit => handleSubmit w
  | Timeout =>
      match timers w with
      | O => w
      | S n =>
          {| gate := {| authenticated := authenticated (gate w);
                        password := password (gate w);
                        error := false |};
             sessionStorage := sessionStorage w;
             timers := n |}
      end
  end.

Definition run (w : World) (events : list Event) : World :=
  fold_left step events w.

Definition render (w : World) : View :=
  if authenticated (gate w) then Children else Form (error (gate w)).

End Gate.

End PasswordGate.

(** The byte two lower-case hexadecimal digits spell, and the text after
    them. *)
Definition unhex1 (s : string) : option (ascii * string) :=
  match s with
  | String h (String l r) =>
      match hexValue h, hexValue l with
      | Some a, Some b => Some (ascii_of_N (16 * a + b), r)
      | _, _ => None
      end
  | _ => None
  end.

(** ** Sample inputs for the transcript and the gate *)

Module Sample.

(** A clock that renders every date the same way. *)
Definition isoClock : Z -> string := fun _ => "2026-02-01T09:30:15.000Z".
Definition localClock : Z -> string := fun _ => "09:30:15".

Definition hello : ConversationEntry :=
  {| role := user; text := "hello"; time := 1770000000000 |}.

(** The 32 bytes [PASS_HASH] spells, and a digest that returns them for the
    text [open sesame] only. *)
Definition passBytes : list ascii :=
  ascii_of_N <$> [182; 185; 251; 220; 183; 153; 40; 179; 128; 140; 201; 50; 251; 190; 224; 164; 171; 232; 206; 176; 71; 15; 165; 62; 105; 233; 174; 242; 195; 163; 24; 144]%N.

Definition toyDigest : string -> list ascii :=
  fun message => if String.eqb message "open sesame" then passBytes else [].

End Sample.

(** * Properties *)

Local Set Warnings "-clear-no-such-hyp".

(** ** [trim] and white space *)

Module JsStringFacts.
Import JsString.

Lemma trimStart_blank_sound (n : nat) (s : string) :
  String.length s <= n -> trimStart s = EmptyString -> WhitespaceOnly s.
Proof.
  revert s. induction n as [|n IH]; intros s Hlen Hs.
  - destruct s; [constructor | simpl in Hlen; lia].
  - destruct s as [|c1 r1]; [constructor|].
    simpl in Hlen. cbn [trimStart] in Hs.
    destruct (ws1 c1) eqn:H1.
    { apply ws_one; [done | apply IH; [lia | done]]. }
    destruct r1 as [|c2 r2]; [done|].
    simpl in Hlen.
    destruct (ws2 c1 c2) eqn:H2.
    { apply ws_two; [done | apply IH; [lia | done]]. }
    destruct r2 as [|c3 r3]; [done|].
    simpl in Hlen.
    destruct (ws3 c1 c2 c3) eqn:H3; [|done].
    apply ws_three; [done | apply IH; [lia | done]].
Qed.

Lemma ws2_not_ws1 c1 c2 : ws2 c1 c2 = true -> ws1 c1 = false.
Proof.
  unfold ws2, ws1, byte_is, byte_in. intros H.
  apply andb_true_iff in H as [H _]. apply N.eqb_eq in H. rewrite H. done.
Qed.

Lemma ws3_not_ws1 c1 c2 c3 : ws3 c1 c2 c3 = true -> ws1 c1 = false.
Proof.
  unfold ws3, ws1, byte_is, byte_in. intros H.
  repeat (apply orb_true_iff in H as [H|H]);
    repeat (apply andb_true_iff in H as [H _]);
    apply N.eqb_eq in H; rewrite H; done.
Qed.

Lemma ws3_not_ws2 c1 c2 c3 : ws3 c1 c2 c3 = true -> ws2 c1 c2 = false.
Proof.
  unfold ws3, ws2, byte_is, byte_in. intros H.
  repeat (apply orb_true_iff in H as [H|H]);
    repeat (apply andb_true_iff in H as [H _]);
    apply N.eqb_eq in H; rewrite H; done.
Qed.

Lemma trimStart_blank_complete (s : string) :
  WhitespaceOnly s -> trimStart s = EmptyString.
Proof.
  induction 1 as [|c r H1 _ IH|c1 c2 r H2 _ IH|c1 c2 c3 r H3 _ IH].
  - done.
  - cbn [trimStart]. by rewrite H1.
  - cbn [trimStart]. by rewrite (ws2_not_ws1 _ _ H2), H2.
  - cbn [trimStart].
    by rewrite (ws3_not_ws1 _ _ _ H3), (ws3_not_ws2 _ _ _ H3), H3.
Qed.

Lemma trimStart_blank (s : string) :
  trimStart s = EmptyString <-> WhitespaceOnly s.
Proof.
  split; [apply (trimStart_blank_sound (String.length s)); lia
         | apply trimStart_blank_complete].
Qed.

Lemma trimStart_idem_bounded (n : nat) (s : string) :
  String.length s <= n -> trimStart (trimStart s) = trimStart s.
Proof.
  revert s. induction n as [|n IH]; intros s Hlen.
  - destruct s; [done | simpl in Hlen; lia].
  - destruct s as [|c1 r1]; [done|].
    simpl in Hlen.
    destruct (ws1 c1) eqn:H1.
    { cbn [trimStart]. rewrite H1. apply IH. lia. }
    destruct r1 as [|c2 r2].
    { cbn [trimStart]. rewrite H1. cbn [trimStart]. by rewrite H1. }
    simpl in Hlen.
    destruct (ws2 c1 c2) eqn:H2.
    { cbn [trimStart]. rewrite H1, H2. apply IH. lia. }
    destruct r2 as [|c3 r3].
    { cbn [trimStart]. rewrite H1, H2. cbn [trimStart]. by rewrite H1, H2. }
    simpl in Hlen.
    destruct (ws3 c1 c2 c3) eqn:H3.
    { cbn [trimStart]. rewrite H1, H2, H3. apply IH. lia. }
    cbn [trimStart]. rewrite H1, H2, H3. cbn [trimStart]. by rewrite H1, H2, H3.
Qed.

Lemma trimStart_idem (s : string) : trimStart (trimStart s) = trimStart s.
Proof. apply (trimStart_idem_bounded (String.length s)). lia. Qed.

Lemma truthy_false (s : string) : truthy s = false <-> s = EmptyString.
Proof. by destruct s. Qed.

Lemma trimEnd_truthy (s : string) :
  truthy (trimEnd s) = negb (whitespace_only s).
Proof.
  destruct s as [|c r]; [done|].
  cbn [trimEnd]. by destruct (whitespace_only (String c r)).
Qed.

Lemma trim_consumed (s : string) : truthy (trim s) = false <-> WhitespaceOnly s.
Proof.
  unfold trim. rewrite trimEnd_truthy. unfold whitespace_only.
  rewrite negb_involutive, trimStart_idem, truthy_false.
  apply trimStart_blank.
Qed.

(** The byte patterns [trimStart] skips are the encodings of the white-space
    code points, and nothing else. *)
Lemma byte_is_eq c n : byte_is c n = true -> c = ascii_of_N n.
Proof.
  unfold byte_is. intros H. apply N.eqb_eq in H. subst n.
  symmetry. apply ascii_N_embedding.
Qed.

Lemma byte_in_range c lo hi :
  byte_in c lo hi = true ->
  exists n, c = ascii_of_N n /\ (lo <= n)%N /\ (n <= hi)%N.
Proof.
  unfold byte_in. intros H. apply andb_true_iff in H as [H1 H2].
  apply N.leb_le in H1, H2. exists (N_of_ascii c).
  split; [symmetry; apply ascii_N_embedding | done].
Qed.

Lemma ws1_code c :
  ws1 c = true ->
  exists cp, cp ∈ whiteSpaceCodePoints /\ utf8 cp = String c EmptyString.
Proof.
  unfold ws1. intros H. apply orb_true_iff in H as [H|H].
  - apply byte_in_range in H as (n & -> & Hlo & Hhi).
    assert (n = 9 \/ n = 10 \/ n = 11 \/ n = 12 \/ n = 13)%N
      as [->|[->|[->|[->| ->]]]] by lia;
      [exists 9%N | exists 10%N | exists 11%N | exists 12%N | exists 13%N];
      (split; [apply (bool_decide_unpack _); by vm_compute | reflexivity]).
  - apply byte_is_eq in H as ->.
    exists 32%N. split; [apply (bool_decide_unpack _); by vm_compute | reflexivity].
Qed.

Lemma ws2_code c1 c2 :
  ws2 c1 c2 = true ->
  exists cp, cp ∈ whiteSpaceCodePoints
             /\ utf8 cp = String c1 (String c2 EmptyString).
Proof.
  unfold ws2. intros H. apply andb_true_iff in H as [H1 H2].
  apply byte_is_eq in H1 as ->. apply byte_is_eq in H2 as ->.
  exists 160%N. split; [apply (bool_decide_unpack _); by vm_compute | reflexivity].
Qed.

Lemma ws3_code c1 c2 c3 :
  ws3 c1 c2 c3 = true ->
  exists cp, cp ∈ whiteSpaceCodePoints
             /\ utf8 cp = String c1 (String c2 (String c3 EmptyString)).
Proof.
  unfold ws3. rewrite !orb_true_iff, !andb_true_iff, !orb_true_iff.
  intros [[[[[[H1 H2] H3]|[[H1 H2] H3]]|[[H1 H2] H3]]|[[H1 H2] H3]]|[[H1 H2] H3]];
    apply byte_is_eq in H1 as ->; apply byte_is_eq in H2 as ->.
  - apply byte_is_eq in H3 as ->.
    exists 5760%N. split; [apply (bool_decide_unpack _); by vm_compute | reflexivity].
  - destruct H3 as [[H3|H3]|H3].
    + apply byte_in_range in H3 as (n & -> & Hlo & Hhi).
      assert (n = 128 \/ n = 129 \/ n = 130 \/ n = 131 \/ n = 132 \/ n = 133
              \/ n = 134 \/ n = 135 \/ n = 136 \/ n = 137 \/ n = 138)%N
        as [->|[->|[->|[->|[->|[->|[->|[->|[->|[->| ->]]]]]]]]]] by lia;
        [exists 8192%N | exists 8193%N | exists 8194%N | exists 8195%N
        | exists 8196%N | exists 8197%N | exists 8198%N | exists 8199%N
        | exists 8200%N | exists 8201%N | exists 8202%N];
        (split; [apply (bool_decide_unpack _); by vm_compute | reflexivity]).
    + apply byte_in_range in H3 as (n & -> & Hlo & Hhi).
      assert (n = 168 \/ n = 169)%N as [->| ->] by lia;
        [exists 8232%N | exists 8233%N];
        (split; [apply (bool_decide_unpack _); by vm_compute | reflexivity]).
    + apply byte_is_eq in H3 as ->.
      exists 8239%N. split; [apply (bool_decide_unpack _); by vm_compute | reflexivity].
  - apply byte_is_eq in H3 as ->.
    exists 8287%N. split; [apply (bool_decide_unpack _); by vm_compute | reflexivity].
  - apply byte_is_eq in H3 as ->.
    exists 12288%N. split; [apply (bool_decide_unpack _); by vm_compute | reflexivity].
  - apply byte_is_eq in H3 as ->.
    exists 65279%N. split; [apply (bool_decide_unpack _); by vm_compute | reflexivity].
Qed.

Lemma consumed_white (s : string) : WhitespaceOnly s -> WhiteSpaceText s.
Proof.
  induction 1 as [|c r Hc _ (cps & Hall & ->)
                  |c1 c2 r Hc _ (cps & Hall & ->)
                  |c1 c2 c3 r Hc _ (cps & Hall & ->)].
  - by exists [].
  - apply ws1_code in Hc as (cp & Hcp & Hu).
    exists (cp :: cps). split; [by constructor|]. cbn [encode]. by rewrite Hu.
  - apply ws2_code in Hc as (cp & Hcp & Hu).
    exists (cp :: cps). split; [by constructor|]. cbn [encode]. by rewrite Hu.
  - apply ws3_code in Hc as (cp & Hcp & Hu).
    exists (cp :: cps). split; [by constructor|]. cbn [encode]. by rewrite Hu.
Qed.

Lemma white_consumed_cons (cp : N) (r : string) :
  cp ∈ whiteSpaceCodePoints -> WhitespaceOnly r -> WhitespaceOnly (utf8 cp +:+ r).
Proof.
  intros Hcp Hr. unfold whiteSpaceCodePoints in Hcp.
  repeat (apply elem_of_cons in Hcp as [->|Hcp];
          [lazymatch goal with
           | |- WhitespaceOnly (utf8 ?n +:+ _) =>
               lazymatch eval vm_compute in (utf8 n) with
               | String ?a EmptyString => exact (ws_one a r eq_refl Hr)
               | String ?a (String ?b EmptyString) =>
                   exact (ws_two a b r eq_refl Hr)
               | String ?a (String ?b (String ?c EmptyString)) =>
                   exact (ws_three a b c r eq_refl Hr)
               end
           end |]).
  by apply elem_of_nil in Hcp.
Qed.

Lemma white_consumed (s : string) : WhiteSpaceText s -> WhitespaceOnly s.
Proof.
  intros (cps & Hall & ->).
  induction Hall as [|cp cps Hcp _ IH]; [constructor|].
  cbn [encode]. by apply white_consumed_cons.
Qed.

(** [s.trim()] is falsy exactly for the texts made of white space only. *)
Lemma trim_falsy (s : string) : truthy (trim s) = false <-> WhiteSpaceText s.
Proof.
  rewrite trim_consumed. split; [apply consumed_white | apply white_consumed].
Qed.

End JsStringFacts.

(** ** Shape of a run *)

Section Properties.

Variables (VOICE_BRIDGE_URL VOICE_BRIDGE_SECRET : string).

Local Abbreviation serverPart := (serverPart VOICE_BRIDGE_URL VOICE_BRIDGE_SECRET).
Local Abbreviation handleFunctionCall :=
  (handleFunctionCall VOICE_BRIDGE_URL VOICE_BRIDGE_SECRET).
Local Abbreviation logStep := (logStep VOICE_BRIDGE_URL VOICE_BRIDGE_SECRET).
Local Abbreviation logEffect := (logEffect VOICE_BRIDGE_URL VOICE_BRIDGE_SECRET).
Local Abbreviation dispatch := (dispatch VOICE_BRIDGE_URL VOICE_BRIDGE_SECRET).
Local Abbreviation step := (step VOICE_BRIDGE_URL VOICE_BRIDGE_SECRET).
Local Abbreviation exec := (exec VOICE_BRIDGE_URL VOICE_BRIDGE_SECRET).
Local Abbreviation actionRequest :=
  (actionRequest VOICE_BRIDGE_URL VOICE_BRIDGE_SECRET).
Local Abbreviation sendToBridge :=
  (sendToBridge VOICE_BRIDGE_URL VOICE_BRIDGE_SECRET).
Local Abbreviation settle := (settle VOICE_BRIDGE_URL VOICE_BRIDGE_SECRET).
Local Abbreviation requestOf := (requestOf VOICE_BRIDGE_URL VOICE_BRIDGE_SECRET).
Local Abbreviation entriesAt := (entriesAt VOICE_BRIDGE_URL VOICE_BRIDGE_SECRET).

(** The definitions' equations. *)
Lemma handleFunctionCall_eq d p acc :
  handleFunctionCall d p acc
  = match Part.functionCall p with
    | Some fc =>
        if decide (callId fc d ∈ handledCalls acc) then acc
        else {| entries := entries acc ++ [announcement fc d];
                handledCalls := {[callId fc d]} ∪ handledCalls acc;
                started := started acc ++ [(callId fc d, dispatch fc)] |}
    | None => acc
    end.
Proof. reflexivity. Qed.

Lemma serverPart_eq d acc p :
  serverPart d acc p = handleFunctionCall d p (pushText model d p acc).
Proof. reflexivity. Qed.

Lemma logStep_eq acc log :
  logStep acc log
  = match message log with
    | MString _ => acc
    | MObject o =>
        match modelParts o with
        | Some ps =>
            fold_left (serverPart (date log)) ps
              match turns o, turnComplete o with
              | Some ts, Some _ => fold_left (userPart (date log)) ts acc
              | _, _ => acc
              end
        | None =>
            match turns o, turnComplete o with
            | Some ts, Some _ => fold_left (userPart (date log)) ts acc
            | _, _ => acc
            end
        end
    end.
Proof. reflexivity. Qed.

Lemma logEffect_eq handled logs :
  logEffect handled logs
  = fold_left logStep logs
      {| entries := []; handledCalls := handled; started := [] |}.
Proof. reflexivity. Qed.

Lemma prepend_restart (r : Run) : prepend (entries r) (started r) (restart r) = r.
Proof. destruct r. unfold prepend, restart. simpl. by rewrite !app_nil_r. Qed.

(** Each loop body only appends to [entries] and to the relay calls, and
    what it appends depends on the handled set alone. *)
Lemma pushText_prepend r d p es cs acc :
  pushText r d p (prepend es cs acc) = prepend es cs (pushText r d p acc).
Proof.
  unfold pushText. destruct (Part.text p) as [s|]; [|done].
  destruct (isContent (Some s)); [|done].
  unfold prepend. simpl. by rewrite app_assoc.
Qed.

Lemma handleFunctionCall_prepend d p es cs acc :
  handleFunctionCall d p (prepend es cs acc)
  = prepend es cs (handleFunctionCall d p acc).
Proof.
  rewrite !handleFunctionCall_eq.
  destruct (Part.functionCall p) as [fc|]; [|done].
  simpl. destruct (decide (callId fc d ∈ handledCalls acc)); [done|].
  unfold prepend. simpl. by rewrite !app_assoc.
Qed.

Lemma userPart_prepend d p es cs acc :
  userPart d (prepend es cs acc) p = prepend es cs (userPart d acc p).
Proof. apply pushText_prepend. Qed.

Lemma serverPart_prepend d p es cs acc :
  serverPart d (prepend es cs acc) p = prepend es cs (serverPart d acc p).
Proof.
  by rewrite !serverPart_eq, pushText_prepend, handleFunctionCall_prepend.
Qed.

Lemma fold_prepend {A} (f : Run -> A -> Run) (l : list A) es cs acc :
  (forall a x, f (prepend es cs a) x = prepend es cs (f a x)) ->
  fold_left f l (prepend es cs acc) = prepend es cs (fold_left f l acc).
Proof.
  intros Hf. revert acc. induction l as [|x l IH]; intros acc; [done|].
  simpl. by rewrite Hf, IH.
Qed.

Lemma logStep_prepend log es cs acc :
  logStep (prepend es cs acc) log = prepend es cs (logStep acc log).
Proof.
  rewrite !logStep_eq. destruct (message log) as [|o]; [done|].
  assert (Hu :
    match turns o, turnComplete o with
    | Some ts, Some _ => fold_left (userPart (date log)) ts (prepend es cs acc)
    | _, _ => prepend es cs acc
    end
    = prepend es cs
        match turns o, turnComplete o with
        | Some ts, Some _ => fold_left (userPart (date log)) ts acc
        | _, _ => acc
        end).
  { destruct (turns o) as [ts|]; [|done].
    destruct (turnComplete o); [|done].
    apply fold_prepend. intros; apply userPart_prepend. }
  rewrite Hu.
  destruct (modelParts o) as [ps|]; [|done].
  apply fold_prepend. intros; apply serverPart_prepend.
Qed.

Lemma logs_prepend logs es cs acc :
  fold_left logStep logs (prepend es cs acc)
  = prepend es cs (fold_left logStep logs acc).
Proof. apply fold_prepend. intros; apply logStep_prepend. Qed.

(** A run over [l1 ++ l2] is the run over [l1] followed by a run over [l2]
    that starts from the handled set the first one leaves. *)
Lemma logEffect_app handled l1 l2 :
  logEffect handled (l1 ++ l2)
  = prepend (entries (logEffect handled l1)) (started (logEffect handled l1))
      (logEffect (handledCalls (logEffect handled l1)) l2).
Proof.
  rewrite (logEffect_eq handled (l1 ++ l2)), fold_left_app, <- logEffect_eq.
  rewrite <- (prepend_restart (logEffect handled l1)) at 1.
  by rewrite logs_prepend.
Qed.

Lemma logEffect_cons handled log logs :
  logEffect handled (log :: logs)
  = prepend (entries (logEffect handled [log])) (started (logEffect handled [log]))
      (logEffect (handledCalls (logEffect handled [log])) logs).
Proof. apply (logEffect_app handled [log] logs). Qed.

Lemma logEffect_singleton handled log :
  logEffect handled [log]
  = logStep {| entries := []; handledCalls := handled; started := [] |} log.
Proof. done. Qed.

(** *** The handled set *)

Lemma pushText_handled r d p acc :
  handledCalls (pushText r d p acc) = handledCalls acc.
Proof.
  unfold pushText. destruct (Part.text p) as [s|]; [|done].
  by destruct (isContent (Some s)).
Qed.

Lemma pushText_started r d p acc : started (pushText r d p acc) = started acc.
Proof.
  unfold pushText. destruct (Part.text p) as [s|]; [|done].
  by destruct (isContent (Some s)).
Qed.

Lemma serverPart_handled d p acc :
  handledCalls (serverPart d acc p)
  = handledCalls acc
    ∪ list_to_set ((fun fc => callId fc d) <$> omap Part.functionCall [p]).
Proof.
  rewrite serverPart_eq, handleFunctionCall_eq, pushText_handled. simpl.
  destruct (Part.functionCall p) as [fc|]; simpl.
  - destruct (decide (callId fc d ∈ handledCalls acc)) as [Hin|Hout]; simpl;
      rewrite ?pushText_handled; set_solver.
  - rewrite pushText_handled. set_solver.
Qed.

Lemma userParts_handled d ts acc :
  handledCalls (fold_left (userPart d) ts acc) = handledCalls acc.
Proof.
  revert acc. induction ts as [|p ts IH]; intros acc; [done|].
  simpl. rewrite IH. apply pushText_handled.
Qed.

Lemma userParts_started d ts acc :
  started (fold_left (userPart d) ts acc) = started acc.
Proof.
  revert acc. induction ts as [|p ts IH]; intros acc; [done|].
  simpl. rewrite IH. apply pushText_started.
Qed.

Lemma serverParts_handled d ps acc :
  handledCalls (fold_left (serverPart d) ps acc)
  = handledCalls acc
    ∪ list_to_set ((fun fc => callId fc d) <$> omap Part.functionCall ps).
Proof.
  revert acc. induction ps as [|p ps IH]; intros acc.
  - simpl. set_solver.
  - simpl fold_left. rewrite IH, serverPart_handled.
    simpl. destruct (Part.functionCall p); simpl; set_solver.
Qed.

Lemma logStep_handled log acc :
  handledCalls (logStep acc log)
  = handledCalls acc ∪ list_to_set (callIds [log]).
Proof.
  rewrite logStep_eq. unfold callIds, functionCalls. simpl.
  destruct (message log) as [|o]; simpl; [set_solver|].
  rewrite app_nil_r.
  destruct (modelParts o) as [ps|].
  - rewrite serverParts_handled.
    destruct (turns o) as [ts|]; [|done].
    destruct (turnComplete o); [|done].
    by rewrite userParts_handled.
  - simpl.
    destruct (turns o) as [ts|]; [|set_solver].
    destruct (turnComplete o); [|set_solver].
    rewrite userParts_handled. set_solver.
Qed.

Lemma callIds_cons log logs : callIds (log :: logs) = callIds [log] ++ callIds logs.
Proof. unfold callIds. simpl. by rewrite app_nil_r. Qed.

(** After a run the handled set holds what it held before and the key of
    every function call in the log. *)
Lemma logEffect_handled handled logs :
  handledCalls (logEffect handled logs) = handled ∪ list_to_set (callIds logs).
Proof.
  revert handled. induction logs as [|log logs IH]; intros handled.
  - simpl. set_solver.
  - rewrite logEffect_cons. cbn [handledCalls prepend].
    rewrite IH, logEffect_singleton, logStep_handled, (callIds_cons log logs).
    cbn [handledCalls]. rewrite list_to_set_app_L. set_solver.
Qed.

(** *** Runs that find every key handled *)

Lemma serverParts_all_handled d ps acc :
  (forall fc, fc ∈ omap Part.functionCall ps -> callId fc d ∈ handledCalls acc) ->
  fold_left (serverPart d) ps acc
  = fold_left (fun a p => pushText model d p a) ps acc.
Proof.
  revert acc. induction ps as [|p ps IH]; intros acc Hall; [done|].
  cbn [fold_left].
  assert (serverPart d acc p = pushText model d p acc) as ->.
  { rewrite serverPart_eq, handleFunctionCall_eq, pushText_handled.
    destruct (Part.functionCall p) as [fc|] eqn:Hfc; [|done].
    destruct (decide (callId fc d ∈ handledCalls acc)) as [|Hout]; [done|].
    exfalso. apply Hout, Hall. simpl. rewrite Hfc. by left. }
  apply IH. intros fc Hfc. rewrite pushText_handled. apply Hall.
  simpl. destruct (Part.functionCall p); [by right | done].
Qed.

Lemma logStep_all_handled log acc :
  (forall id, id ∈ callIds [log] -> id ∈ handledCalls acc) ->
  logStep acc log = logStepV1 acc log.
Proof.
  intros Hall. rewrite logStep_eq. unfold logStepV1, callIds, functionCalls in *.
  simpl in Hall. rewrite app_nil_r in Hall.
  destruct (message log) as [|o]; [done|].
  destruct (modelParts o) as [ps|]; [|done].
  apply serverParts_all_handled. intros fc Hfc.
  assert (callId fc (date log) ∈ handledCalls acc) as Hin.
  { apply Hall. apply list_elem_of_fmap. by exists fc. }
  destruct (turns o) as [ts|]; [|done].
  destruct (turnComplete o); [|done].
  by rewrite userParts_handled.
Qed.

Lemma logStepV1_handled log acc : handledCalls (logStepV1 acc log) = handledCalls acc.
Proof.
  unfold logStepV1. destruct (message log) as [|o]; [done|].
  assert (forall ps a,
    handledCalls (fold_left (fun a p => pushText model (date log) p a) ps a)
    = handledCalls a) as Hps.
  { induction ps as [|p ps IH]; intros a; [done|].
    simpl. by rewrite IH, pushText_handled. }
  destruct (modelParts o) as [ps|]; simpl; rewrite ?Hps;
    (destruct (turns o) as [ts|]; [|done]);
    (destruct (turnComplete o); [|done]);
    apply userParts_handled.
Qed.

Lemma logStepV1_entries log acc1 acc2 :
  entries acc1 = entries acc2 ->
  entries (logStepV1 acc1 log) = entries (logStepV1 acc2 log).
Proof.
  assert (forall r d p a1 a2,
    entries a1 = entries a2 ->
    entries (pushText r d p a1) = entries (pushText r d p a2)) as Hpush.
  { intros r d p a1 a2 H. unfold pushText.
    destruct (Part.text p) as [s|]; [|done].
    destruct (isContent (Some s)); [|done]. simpl. by rewrite H. }
  assert (forall r d ps a1 a2,
    entries a1 = entries a2 ->
    entries (fold_left (fun a p => pushText r d p a) ps a1)
    = entries (fold_left (fun a p => pushText r d p a) ps a2)) as Hfold.
  { intros r d ps. induction ps as [|p ps IH]; intros a1 a2 H; [done|].
    simpl. by apply IH, Hpush. }
  intros H. unfold logStepV1. destruct (message log) as [|o]; [done|].
  assert (entries match turns o, turnComplete o with
                  | Some ts, Some _ => fold_left (userPart (date log)) ts acc1
                  | _, _ => acc1
                  end
          = entries match turns o, turnComplete o with
                    | Some ts, Some _ => fold_left (userPart (date log)) ts acc2
                    | _, _ => acc2
                    end) as Hu.
  { destruct (turns o) as [ts|]; [|done].
    destruct (turnComplete o); [|done].
    by apply (Hfold user). }
  simpl. destruct (modelParts o) as [ps|]; [|done]. by apply Hfold.
Qed.

Lemma logs_all_handled logs acc1 acc2 :
  (forall id, id ∈ callIds logs -> id ∈ handledCalls acc1) ->
  entries acc1 = entries acc2 ->
  entries (fold_left logStep logs acc1) = entries (fold_left logStepV1 logs acc2)
  ∧ handledCalls (fold_left logStep logs acc1) = handledCalls acc1.
Proof.
  revert acc1 acc2. induction logs as [|log logs IH]; intros acc1 acc2 Hall Hent;
    [done|].
  cbn [fold_left]. rewrite (callIds_cons log logs) in Hall.
  assert (logStep acc1 log = logStepV1 acc1 log) as Hstep.
  { apply logStep_all_handled. intros id Hid. apply Hall, elem_of_app. by left. }
  destruct (IH (logStep acc1 log) (logStepV1 acc2 log)) as [-> ->].
  - intros id Hid. rewrite Hstep, logStepV1_handled.
    apply Hall, elem_of_app. by right.
  - rewrite Hstep. by apply logStepV1_entries.
  - split; [done|]. by rewrite Hstep, logStepV1_handled.
Qed.

(** A run that finds every key of the log handled derives the text entries
    alone, as the effect without function calls does, and leaves the handled
    set as it is. *)
Lemma logEffect_all_handled handled logs :
  (forall id, id ∈ callIds logs -> id ∈ handled) ->
  entries (logEffect handled logs) = logEffectV1 logs
  ∧ handledCalls (logEffect handled logs) = handled.
Proof.
  intros Hall. rewrite logEffect_eq. unfold logEffectV1.
  by apply logs_all_handled.
Qed.

(** Every run after the first over an unchanged log derives the text entries
    alone. *)
Lemma logEffect_rerun handled logs :
  entries (logEffect (handledCalls (logEffect handled logs)) logs)
  = logEffectV1 logs.
Proof.
  apply logEffect_all_handled. intros id Hid.
  rewrite logEffect_handled. apply elem_of_union_r.
  by apply elem_of_list_to_set.
Qed.

(** *** Relay calls per key *)

Lemma relayCount_app id l1 l2 :
  relayCount id (l1 ++ l2) = relayCount id l1 + relayCount id l2.
Proof. unfold relayCount. by rewrite filter_app, length_app. Qed.

Lemma relayCount_single id id' (c : RelayCall) :
  relayCount id [(id', c)] = if decide (id' = id) then 1 else 0.
Proof.
  unfold relayCount. rewrite filter_cons. simpl.
  by destruct (decide (id' = id)).
Qed.

Lemma startedOnce_initial handled :
  startedOncePerNewKey handled
    {| entries := []; handledCalls := handled; started := [] |}.
Proof.
  split; [done|]. intros id. simpl.
  destruct (decide (id ∈ handled ∖ handled)) as [Hin|]; [set_solver | done].
Qed.

Lemma pushText_once handled0 r d p acc :
  startedOncePerNewKey handled0 acc ->
  startedOncePerNewKey handled0 (pushText r d p acc).
Proof.
  unfold startedOncePerNewKey.
  by rewrite pushText_handled, pushText_started.
Qed.

Lemma handleFunctionCall_once handled0 d p acc :
  startedOncePerNewKey handled0 acc ->
  startedOncePerNewKey handled0 (handleFunctionCall d p acc).
Proof.
  intros [Hsub Hcount]. rewrite handleFunctionCall_eq.
  destruct (Part.functionCall p) as [fc|]; [|done].
  simpl. destruct (decide (callId fc d ∈ handledCalls acc)) as [Hin|Hout]; [done|].
  split; simpl; [set_solver|].
  intros id. rewrite relayCount_app, Hcount, relayCount_single.
  destruct (decide (callId fc d = id)) as [<-|Hne].
  - destruct (decide (callId fc d ∈ handledCalls acc ∖ handled0)); [set_solver|].
    destruct (decide (callId fc d ∈ ({[callId fc d]} ∪ handledCalls acc) ∖ handled0));
      [done | set_solver].
  - destruct (decide (id ∈ handledCalls acc ∖ handled0));
      destruct (decide (id ∈ ({[callId fc d]} ∪ handledCalls acc) ∖ handled0));
      [done | set_solver | set_solver | done].
Qed.

Lemma fold_once {A} (f : Run -> A -> Run) handled0 (l : list A) acc :
  (forall a x, startedOncePerNewKey handled0 a ->
               startedOncePerNewKey handled0 (f a x)) ->
  startedOncePerNewKey handled0 acc ->
  startedOncePerNewKey handled0 (fold_left f l acc).
Proof.
  intros Hf. revert acc. induction l as [|x l IH]; intros acc Hacc; [done|].
  simpl. apply IH, Hf, Hacc.
Qed.

Lemma logStep_once handled0 acc log :
  startedOncePerNewKey handled0 acc ->
  startedOncePerNewKey handled0 (logStep acc log).
Proof.
  intros Hacc. rewrite logStep_eq.
  destruct (message log) as [|o]; [done|].
  assert (startedOncePerNewKey handled0
            match turns o, turnComplete o with
            | Some ts, Some _ => fold_left (userPart (date log)) ts acc
            | _, _ => acc
            end) as Hu.
  { destruct (turns o) as [ts|]; [|done].
    destruct (turnComplete o); [|done].
    apply fold_once; [|done]. intros a x. apply pushText_once. }
  destruct (modelParts o) as [ps|]; [|done].
  apply fold_once; [|done].
  intros a x Ha. rewrite serverPart_eq.
  by apply handleFunctionCall_once, pushText_once.
Qed.

(** Within one run a relay call is started exactly once for every key the
    run adds to the handled set, and never for a key handled before. *)
Lemma logEffect_once handled logs :
  startedOncePerNewKey handled (logEffect handled logs).
Proof.
  apply fold_once; [|apply startedOnce_initial].
  intros a x. apply logStep_once.
Qed.

Lemma logEffect_count handled logs id :
  relayCount id (started (logEffect handled logs))
  = if decide (id ∈ callIds logs ∧ id ∉ handled) then 1 else 0.
Proof.
  destruct (logEffect_once handled logs) as [_ ->].
  rewrite logEffect_handled.
  destruct (decide (id ∈ (handled ∪ list_to_set (callIds logs)) ∖ handled)) as [Hin|Hout];
    destruct (decide (id ∈ callIds logs ∧ id ∉ handled)) as [Hc|Hc];
    [done | | | done]; exfalso.
  - apply Hc. set_solver.
  - apply Hout. destruct Hc. set_solver.
Qed.

(** *** The component over time *)

Lemma step_handled_mono s st : handledCallsRef s ⊆ handledCallsRef (step s st).
Proof.
  destruct st as [logs|i b]; simpl.
  - rewrite logEffect_handled. set_solver.
  - by destruct (inflight s !! i).
Qed.

Lemma exec_handled_mono s steps : handledCallsRef s ⊆ handledCallsRef (exec s steps).
Proof.
  revert s. induction steps as [|st steps IH]; intros s; [done|].
  simpl. etrans; [apply (step_handled_mono s st) | apply IH].
Qed.

Lemma step_count s st id :
  relayCount id (relayLog (step s st))
  = relayCount id (relayLog s)
    + (if decide (id ∈ handledCallsRef (step s st) ∖ handledCallsRef s) then 1 else 0).
Proof.
  destruct st as [logs|i b]; simpl.
  - rewrite relayCount_app. f_equal.
    by destruct (logEffect_once (handledCallsRef s) logs) as [_ ->].
  - destruct (inflight s !! i); simpl;
      (destruct (decide (id ∈ handledCallsRef s ∖ handledCallsRef s));
       [set_solver | lia]).
Qed.

(** A key that is handled gets no further relay call, whatever happens. *)
Lemma exec_count_handled s steps id :
  id ∈ handledCallsRef s ->
  relayCount id (relayLog (exec s steps)) = relayCount id (relayLog s).
Proof.
  revert s. induction steps as [|st steps IH]; intros s Hin; [done|].
  simpl. rewrite IH by (by apply step_handled_mono).
  rewrite step_count.
  destruct (decide (id ∈ handledCallsRef (step s st) ∖ handledCallsRef s));
    [set_solver | lia].
Qed.

(** From the mounted component on, every handled key has had exactly one
    relay call and every other key none. *)
Lemma exec_mounted_count steps id :
  relayCount id (relayLog (exec mounted steps))
  = if decide (id ∈ handledCallsRef (exec mounted steps)) then 1 else 0.
Proof.
  assert (forall s,
    (forall k, relayCount k (relayLog s)
               = if decide (k ∈ handledCallsRef s) then 1 else 0) ->
    forall k, relayCount k (relayLog (exec s steps))
              = if decide (k ∈ handledCallsRef (exec s steps)) then 1 else 0) as Hgen.
  { induction steps as [|st steps IH]; intros s Hs k; [apply Hs|].
    simpl. apply IH. intros k'. rewrite step_count, Hs.
    pose proof (step_handled_mono s st) as Hmono.
    destruct (decide (k' ∈ handledCallsRef s));
      destruct (decide (k' ∈ handledCallsRef (step s st) ∖ handledCallsRef s));
      destruct (decide (k' ∈ handledCallsRef (step s st)));
      first [done | set_solver]. }
  apply Hgen. intros k. simpl.
  destruct (decide (k ∈ (∅ : gset string))); [set_solver | done].
Qed.

Lemma exec_app s l1 l2 : exec s (l1 ++ l2) = exec (exec s l1) l2.
Proof. apply fold_left_app. Qed.

Lemma exec_cons s st steps : exec s (st :: steps) = exec (step s st) steps.
Proof. reflexivity. Qed.

(** *** At-most-once dispatch *)

Lemma elem_of_callIds logs log fc :
  log ∈ logs -> fc ∈ functionCalls log -> callId fc (date log) ∈ callIds logs.
Proof.
  intros Hlog Hfc. unfold callIds. apply list_elem_of_bind.
  exists log. split; [|done]. apply list_elem_of_fmap. by exists fc.
Qed.

Lemma handled_after_run s steps logs id :
  RunEffect logs ∈ steps -> id ∈ callIds logs ->
  id ∈ handledCallsRef (exec s steps).
Proof.
  intros Hin Hid. apply list_elem_of_split in Hin as (l1 & l2 & ->).
  rewrite exec_app. simpl. apply exec_handled_mono.
  simpl. rewrite logEffect_handled. set_solver.
Qed.

(** C8. A key in the handled set stays in it through every later effect run
    and every settled promise, and no relay call is started for it again;
    settling a promise, with whatever outcome, leaves the set as it is. *)
Theorem handled_key_never_redispatched :
  forall s steps id,
    id ∈ handledCallsRef s ->
    id ∈ handledCallsRef (exec s steps)
    ∧ relayCount id (relayLog (exec s steps)) = relayCount id (relayLog s)
    ∧ forall i b,
        handledCallsRef (step (exec s steps) (SettleCall i b))
        = handledCallsRef (exec s steps)
        ∧ relayLog (step (exec s steps) (SettleCall i b))
          = relayLog (exec s steps).
Proof.
  intros s steps id Hin. split; [by apply exec_handled_mono|].
  split; [by apply exec_count_handled|].
  intros i b. simpl. by destruct (inflight (exec s steps) !! i).
Qed.

(** *** Order of the conversation *)

Lemma entries_split handled logs i log :
  logs !! i = Some log ->
  entries (logEffect handled logs)
  = entries (logEffect handled (take i logs))
    ++ entriesAt handled logs i
    ++ entries (logEffect
                  (handledCalls (logEffect handled (take (S i) logs)))
                  (drop (S i) logs)).
Proof.
  intros Hi. unfold entriesAt. rewrite Hi.
  rewrite <- (take_drop (S i) logs) at 1.
  rewrite (take_S_r logs i log Hi).
  rewrite logEffect_app. cbn [entries prepend].
  rewrite (logEffect_app handled (take i logs) [log]). cbn [entries prepend].
  rewrite logEffect_singleton. by rewrite <- app_assoc.
Qed.

Lemma entriesAt_take handled logs i j :
  i < j ->
  entriesAt handled (take j logs) i
  = entriesAt handled logs i.
Proof.
  intros Hij. unfold entriesAt.
  rewrite lookup_take_lt by done.
  rewrite take_take. by rewrite Nat.min_l by lia.
Qed.

(** C7. For log positions [i < j] the conversation is: the entries of the
    log entries before [i], the entries of the one at [i], some entries in
    between, the entries of the one at [j], and the rest. Every entry of the
    log entry at [i] thus stands before every entry of the one at [j]. *)
Theorem conversation_follows_log_order :
  forall handled logs i j ei ej,
    i < j -> logs !! i = Some ei -> logs !! j = Some ej ->
    exists between after,
      entries (logEffect handled logs)
      = entries (logEffect handled (take i logs))
        ++ entriesAt handled logs i
        ++ between
        ++ entriesAt handled logs j
        ++ after.
Proof.
  intros handled logs i j ei ej Hij Hi Hj.
  exists (entries (logEffect
                     (handledCalls (logEffect handled (take (S i) (take j logs))))
                     (drop (S i) (take j logs)))),
         (entries (logEffect
                     (handledCalls (logEffect handled (take (S j) logs)))
                     (drop (S j) logs))).
  rewrite (entries_split handled logs j ej Hj).
  rewrite (entries_split handled (take j logs) i ei)
    by (by rewrite lookup_take_lt).
  rewrite entriesAt_take by done.
  rewrite take_take. rewrite Nat.min_l by lia.
  by rewrite <- !app_assoc.
Qed.

(** *** Relay calls and their announcements *)

Lemma fold_entries_grow {A} (f : Run -> A -> Run) (l : list A) acc e :
  (forall es cs a x, f (prepend es cs a) x = prepend es cs (f a x)) ->
  e ∈ entries acc -> e ∈ entries (fold_left f l acc).
Proof.
  intros Hf He. rewrite <- (prepend_restart acc), fold_prepend by apply Hf.
  cbn [entries prepend]. apply elem_of_app. by left.
Qed.

Lemma serverPart_started_announced d p acc id c :
  (id, c) ∈ started (serverPart d acc p) ->
  (id, c) ∈ started acc
  ∨ ∃ fc, Part.functionCall p = Some fc ∧ id = callId fc d ∧ c = dispatch fc
          ∧ announcement fc d ∈ entries (serverPart d acc p).
Proof.
  rewrite serverPart_eq, handleFunctionCall_eq, pushText_handled.
  destruct (Part.functionCall p) as [fc|].
  - destruct (decide (callId fc d ∈ handledCalls acc)).
    + rewrite pushText_started. by left.
    + cbn [started entries]. rewrite pushText_started, elem_of_app.
      intros [Hin|Hin]; [by left|]. right.
      apply list_elem_of_singleton in Hin. injection Hin as -> ->.
      exists fc. repeat split. apply elem_of_app. right. by left.
  - rewrite pushText_started. by left.
Qed.

Lemma serverParts_started_announced d ps acc id c :
  (id, c) ∈ started (fold_left (serverPart d) ps acc) ->
  (id, c) ∈ started acc
  ∨ ∃ fc, fc ∈ omap Part.functionCall ps ∧ id = callId fc d ∧ c = dispatch fc
          ∧ announcement fc d ∈ entries (fold_left (serverPart d) ps acc).
Proof.
  revert acc. induction ps as [|p ps IH]; intros acc; [by left|].
  cbn [fold_left]. intros Hin.
  destruct (IH _ Hin) as [Hacc|(fc & Hfc & -> & -> & Hann)].
  - destruct (serverPart_started_announced _ _ _ _ _ Hacc)
      as [?|(fc & Hfc & -> & -> & Hann)]; [by left|].
    right. exists fc. split; [|repeat split].
    + simpl. rewrite Hfc. by left.
    + apply fold_entries_grow; [|done]. intros; apply serverPart_prepend.
  - right. exists fc. split; [|done].
    simpl. destruct (Part.functionCall p); [by right | done].
Qed.

Lemma logStep_started_announced log acc id c :
  (id, c) ∈ started (logStep acc log) ->
  (id, c) ∈ started acc
  ∨ ∃ fc, fc ∈ functionCalls log ∧ id = callId fc (date log) ∧ c = dispatch fc
          ∧ announcement fc (date log) ∈ entries (logStep acc log).
Proof.
  rewrite logStep_eq. unfold functionCalls.
  destruct (message log) as [|o]; [by left|].
  destruct (modelParts o) as [ps|].
  - intros Hin.
    destruct (serverParts_started_announced _ _ _ _ _ Hin) as [Hacc|?]; [|by right].
    left. destruct (turns o) as [ts|]; [|done].
    destruct (turnComplete o); [|done].
    by rewrite userParts_started in Hacc.
  - intros Hin. left. destruct (turns o) as [ts|]; [|done].
    destruct (turnComplete o); [|done].
    by rewrite userParts_started in Hin.
Qed.

Lemma logs_started_announced logs acc id c :
  (id, c) ∈ started (fold_left logStep logs acc) ->
  (id, c) ∈ started acc
  ∨ ∃ log fc, log ∈ logs ∧ fc ∈ functionCalls log
              ∧ id = callId fc (date log) ∧ c = dispatch fc
              ∧ announcement fc (date log) ∈ entries (fold_left logStep logs acc).
Proof.
  revert acc. induction logs as [|log logs IH]; intros acc; [by left|].
  cbn [fold_left]. intros Hin.
  destruct (IH _ Hin) as [Hacc|(log' & fc & Hlog & Hfc & -> & -> & Hann)].
  - destruct (logStep_started_announced _ _ _ _ Hacc)
      as [?|(fc & Hfc & -> & -> & Hann)]; [by left|].
    right. exists log, fc. split; [by left|]. repeat split; [done|].
    apply fold_entries_grow; [|done]. intros; apply logStep_prepend.
  - right. exists log', fc. split; [by right | done].
Qed.

(** Every relay call a run starts belongs to a function call of the log, and
    the run's entries hold the announcement of that call. *)
Lemma logEffect_started_announced handled logs id c :
  (id, c) ∈ started (logEffect handled logs) ->
  ∃ log fc, log ∈ logs ∧ fc ∈ functionCalls log
            ∧ id = callId fc (date log) ∧ c = dispatch fc
            ∧ announcement fc (date log) ∈ entries (logEffect handled logs).
Proof.
  rewrite logEffect_eq. intros Hin.
  destruct (logs_started_announced _ _ _ _ Hin) as [Hnil|?]; [|done].
  cbn in Hnil. by apply elem_of_nil in Hnil.
Qed.

(** Settling promises changes neither the conversation nor the handled set. *)
Lemma settle_steps_keep s (settles : list (nat * Relay)) :
  conversation (exec s ((fun ib => SettleCall ib.1 ib.2) <$> settles))
  = conversation s
  ∧ handledCallsRef (exec s ((fun ib => SettleCall ib.1 ib.2) <$> settles))
    = handledCallsRef s.
Proof.
  revert s. induction settles as [|[i b] settles IH]; intros s; [done|].
  rewrite fmap_cons. change (i, b).1 with i. change (i, b).2 with b.
  rewrite exec_cons.
  destruct (IH (step s (SettleCall i b))) as [-> ->].
  simpl. by destruct (inflight s !! i).
Qed.

(** After an effect run, let the relay promises settle in any order and
    with any outcome, failures included. Until the effect runs again the
    conversation is the one the run derived: it holds the announcement of
    every relay call the run started. *)
Lemma settled_calls_leave_conversation :
  forall s logs (settles : list (nat * Relay)),
    let handled := handledCallsRef s in
    let s' := exec (step s (RunEffect logs))
                ((fun ib => SettleCall ib.1 ib.2) <$> settles) in
    conversation s' = entries (logEffect handled logs)
    ∧ (forall id c,
         (id, c) ∈ started (logEffect handled logs) ->
         ∃ log fc, log ∈ logs ∧ fc ∈ functionCalls log
                   ∧ id = callId fc (date log) ∧ c = dispatch fc
                   ∧ announcement fc (date log) ∈ conversation s').
Proof.
  intros s logs settles handled s'.
  assert (conversation s' = entries (logEffect handled logs)) as Hconv.
  { unfold s'. by rewrite (proj1 (settle_steps_keep _ _)). }
  split; [done|].
  intros id c Hin. rewrite Hconv. by apply logEffect_started_announced.
Qed.

(** *** Text parts *)

Lemma isContent_blank (s : string) : isContent (Some s) = false <-> blank (Some s).
Proof.
  unfold isContent, blank. split.
  - intros H. apply andb_false_iff in H as [H|H].
    + apply andb_false_iff in H as [H|H].
      * left. by apply JsStringFacts.truthy_false.
      * right; left. by apply JsStringFacts.trim_falsy.
    + right; right. apply negb_false_iff in H. by apply String.eqb_eq.
  - intros [->|[H| ->]]; [done | | done].
    apply JsStringFacts.trim_falsy in H. rewrite H.
    by rewrite andb_false_r.
Qed.

Lemma isContent_content (s : string) : isContent (Some s) = true <-> ¬ blank (Some s).
Proof.
  rewrite <- isContent_blank. by destruct (isContent (Some s)).
Qed.

Lemma pushText_blank r d p acc : blank (Part.text p) -> pushText r d p acc = acc.
Proof.
  unfold pushText. destruct (Part.text p) as [s|]; [|done].
  intros H. apply isContent_blank in H. by rewrite H.
Qed.


(** What the function call of a part adds to the entries: nothing, or the
    announcement of the call. *)
Lemma handleFunctionCall_entries d p acc :
  ∃ rest,
    entries (handleFunctionCall d p acc) = entries acc ++ rest
    ∧ (rest = [] ∨ ∃ fc, Part.functionCall p = Some fc ∧ rest = [announcement fc d]).
Proof.
  rewrite handleFunctionCall_eq. destruct (Part.functionCall p) as [fc|].
  - destruct (decide (callId fc d ∈ handledCalls acc)).
    + exists []. split; [by rewrite app_nil_r | by left].
    + exists [announcement fc d]. split; [done | right; by exists fc].
  - exists []. split; [by rewrite app_nil_r | by left].
Qed.

Lemma handleFunctionCall_none d p acc :
  Part.functionCall p = None -> handleFunctionCall d p acc = acc.
Proof. rewrite handleFunctionCall_eq. by intros ->. Qed.

(** What the text of a part adds to [entries]: nothing when it is blank,
    one entry with the given role and date when it is not. *)
Lemma pushText_yield r d p acc :
  ∃ es,
    pushText r d p acc = prepend [] [] {| entries := entries acc ++ es;
                                          handledCalls := handledCalls acc;
                                          started := started acc |}
    ∧ (blank (Part.text p) -> es = [])
    ∧ (forall s, Part.text p = Some s -> ¬ blank (Some s) ->
         es = [{| role := r; text := s; time := d |}]).
Proof.
  destruct (Part.text p) as [s|] eqn:Hs.
  - destruct (isContent (Some s)) eqn:Hc.
    + exists [textEntry r d s]. split; [|split].
      * unfold pushText. by rewrite Hs, Hc.
      * intros Hb. apply isContent_blank in Hb. congruence.
      * by intros s' [= <-] _.
    + exists []. split; [|split].
      * unfold pushText. rewrite Hs, Hc, app_nil_r. by destruct acc.
      * done.
      * intros s' [= <-] Hn. apply isContent_content in Hn. congruence.
  - exists []. split; [|split].
    + unfold pushText. rewrite Hs, app_nil_r. by destruct acc.
    + done.
    + by intros s' [=].
Qed.

Lemma userParts_yield d ts acc :
  ∃ us,
    entries (fold_left (userPart d) ts acc) = entries acc ++ concat us
    ∧ Forall2 (fun p es =>
                 (blank (Part.text p) -> es = [])
                 ∧ (forall s, Part.text p = Some s -> ¬ blank (Some s) ->
                      es = [{| role := user; text := s; time := d |}]))
        ts us.
Proof.
  revert acc. induction ts as [|p ts IH]; intros acc.
  - exists []. split; [by rewrite app_nil_r | constructor].
  - cbn [fold_left]. destruct (IH (userPart d acc p)) as (us & Hus & Hall).
    destruct (pushText_yield user d p acc) as (es & Hes & Hy).
    exists (es :: us). split; [|by constructor].
    rewrite Hus. unfold userPart. rewrite Hes. cbn [entries prepend concat app].
    by rewrite <- app_assoc.
Qed.

Lemma serverParts_yield d ps acc :
  ∃ ms : list (list ConversationEntry * list ConversationEntry),
    entries (fold_left (serverPart d) ps acc)
    = entries acc ++ concat ((fun ta => ta.1 ++ ta.2) <$> ms)
    ∧ Forall2 (fun p ta =>
                 ((blank (Part.text p) -> ta.1 = [])
                  ∧ (forall s, Part.text p = Some s -> ¬ blank (Some s) ->
                       ta.1 = [{| role := model; text := s; time := d |}]))
                 ∧ (ta.2 = []
                    ∨ ∃ fc, Part.functionCall p = Some fc
                            ∧ ta.2 = [announcement fc d]))
        ps ms.
Proof.
  revert acc. induction ps as [|p ps IH]; intros acc.
  - exists []. split; [by rewrite app_nil_r | constructor].
  - cbn [fold_left]. destruct (IH (serverPart d acc p)) as (ms & Hms & Hall).
    destruct (pushText_yield model d p acc) as (es & Hes & Hy).
    destruct (handleFunctionCall_entries d p (pushText model d p acc))
      as (rest & Hrest & Hcase).
    exists ((es, rest) :: ms). split; [|by constructor].
    rewrite Hms, serverPart_eq, Hrest, Hes.
    cbn [entries prepend fmap list_fmap concat app fst snd].
    by rewrite <- !app_assoc.
Qed.

Lemma logStep_yield log acc :
  ∃ us (ms : list (list ConversationEntry * list ConversationEntry)),
    entries (logStep acc log)
    = entries acc ++ concat us ++ concat ((fun ta => ta.1 ++ ta.2) <$> ms)
    ∧ Forall2 (fun p es =>
                 (blank (Part.text p) -> es = [])
                 ∧ (forall s, Part.text p = Some s -> ¬ blank (Some s) ->
                      es = [{| role := user; text := s; time := date log |}]))
        (userTurnParts log) us
    ∧ Forall2 (fun p ta =>
                 ((blank (Part.text p) -> ta.1 = [])
                  ∧ (forall s, Part.text p = Some s -> ¬ blank (Some s) ->
                       ta.1 = [{| role := model; text := s; time := date log |}]))
                 ∧ (ta.2 = []
                    ∨ ∃ fc, Part.functionCall p = Some fc
                            ∧ ta.2 = [announcement fc (date log)]))
        (modelTurnParts log) ms.
Proof.
  rewrite logStep_eq. unfold userTurnParts, modelTurnParts.
  destruct (message log) as [|o].
  { exists [], []. split; [by rewrite app_nil_r | split; constructor]. }
  assert (∃ us,
    entries match turns o, turnComplete o with
            | Some ts, Some _ => fold_left (userPart (date log)) ts acc
            | _, _ => acc
            end = entries acc ++ concat us
    ∧ Forall2 (fun p es =>
                 (blank (Part.text p) -> es = [])
                 ∧ (forall s, Part.text p = Some s -> ¬ blank (Some s) ->
                      es = [{| role := user; text := s; time := date log |}]))
        match turns o, turnComplete o with
        | Some ts, Some _ => ts
        | _, _ => []
        end us) as (us & Hus & Hu).
  { destruct (turns o) as [ts|];
      [|exists []; split; [by rewrite app_nil_r | constructor]].
    destruct (turnComplete o);
      [|exists []; split; [by rewrite app_nil_r | constructor]].
    apply userParts_yield. }
  exists us. destruct (modelParts o) as [ps|].
  - destruct (serverParts_yield (date log) ps
                match turns o, turnComplete o with
                | Some ts, Some _ => fold_left (userPart (date log)) ts acc
                | _, _ => acc
                end) as (ms & Hms & Hm).
    exists ms. split; [|done]. rewrite Hms, Hus. by rewrite <- app_assoc.
  - exists []. split; [|split; [done | constructor]].
    rewrite Hus. cbn. by rewrite app_nil_r.
Qed.

(** C6. Take the log entry at any position of the log. The conversation the
    effect derives is: the entries of the log entries before it, then what
    the parts of its user turn yield, part by part, then what the parts of
    its model turn yield, part by part, then the entries of the log entries
    after it. A part whose text is absent, empty, white space only or a bare
    newline yields no text entry; any other text yields exactly one, with
    role [user] for a part of the user turn and [model] (the assistant) for a
    part of the model turn, the text itself and the date of this log entry.
    Beside its text entry a model part yields nothing but the announcement
    its function call may bring. *)
Theorem text_part_filter :
  forall handled logs i log,
    logs !! i = Some log ->
    ∃ (us : list (list ConversationEntry))
      (ms : list (list ConversationEntry * list ConversationEntry)),
      entries (logEffect handled logs)
      = entries (logEffect handled (take i logs))
        ++ (concat us ++ concat ((fun ta => ta.1 ++ ta.2) <$> ms))
        ++ entries (logEffect
                      (handledCalls (logEffect handled (take (S i) logs)))
                      (drop (S i) logs))
      ∧ Forall2 (fun p es =>
                   (blank (Part.text p) -> es = [])
                   ∧ (forall s, Part.text p = Some s -> ¬ blank (Some s) ->
                        es = [{| role := user; text := s; time := date log |}]))
          (userTurnParts log) us
      ∧ Forall2 (fun p ta =>
                   ((blank (Part.text p) -> ta.1 = [])
                    ∧ (forall s, Part.text p = Some s -> ¬ blank (Some s) ->
                         ta.1 = [{| role := model; text := s; time := date log |}]))
                   ∧ (ta.2 = []
                      ∨ ∃ fc, Part.functionCall p = Some fc
                              ∧ ta.2 = [announcement fc (date log)]))
          (modelTurnParts log) ms.
Proof.
  intros handled logs i log Hi.
  destruct (logStep_yield log (restart (logEffect handled (take i logs))))
    as (us & ms & Hent & Hu & Hm).
  exists us, ms. split; [|done].
  rewrite (entries_split handled logs i log Hi). unfold entriesAt.
  by rewrite Hi, Hent.
Qed.




(** *** The relay call of a function call *)

Lemma dispatch_eq fc :
  dispatch fc
  = if String.eqb (name fc) "send_message"
    then FetchCommand
           (commandRequest VOICE_BRIDGE_URL VOICE_BRIDGE_SECRET
              (argsOrEmpty (args fc)))
    else SendToBridge (name fc) (argsOrEmpty (args fc)).
Proof.
  unfold dispatch.
  destruct (String.eqb (name fc) "send_message") eqn:Heq; [done|].
  by rewrite Heq.
Qed.

(** *** [sendToBridge] *)

Lemma isSent_true status : isSent status = true <-> status = Some (Json.JStr "sent").
Proof.
  destruct status as [[| | |s| |]|]; simpl; try by split.
  rewrite String.eqb_eq. split; [by intros -> | by intros [= ->]].
Qed.

Lemma sendToBridge_eq relay action params :
  sendToBridge relay action params
  = match relay (actionRequest action params) with
    | TransportError e | MalformedBody e =>
        {| success := false; resultMessage := Json.JStr ("Bridge error: " +:+ e) |}
    | Responds Json.JNull =>
        {| success := false;
           resultMessage := Json.JStr ("Bridge error: " +:+ nullTypeError "status") |}
    | Responds (Json.JObj props) =>
        {| success := isSent (Json.lookup "status" props);
           resultMessage := orSent (Json.lookup "message" props) |}
    | Responds _ => {| success := false; resultMessage := Json.JStr "sent" |}
    end.
Proof.
  unfold sendToBridge, fetchJson.
  destruct (relay (actionRequest action params)) as [e|e|data]; [done | done |].
  by destruct data.
Qed.

(** C3, as the code has it. [sendToBridge] never throws past its caller
    and always returns a result: its promise settles to that result and
    nothing is written to the console. A transport error or a body that is
    not JSON gives [success: false] with the message [Bridge error: ...];
    [success] is true exactly when the body's [status] is ["sent"], so any
    other response gives [success: false]. The [send_message] request does
    not throw past its caller either, but gives no result: a rejection goes
    to [console.error] and leaves [undefined], and a response is not read. *)
Theorem sendToBridge_fails_closed :
  forall (relay : Relay) action params,
    let b := relay (actionRequest action params) in
    let r := sendToBridge relay action params in
    settle relay (SendToBridge action params) = (SResult r, [])
    ∧ (forall e, b = TransportError e ∨ b = MalformedBody e ->
         r = {| success := false;
                resultMessage := Json.JStr ("Bridge error: " +:+ e) |})
    ∧ (success r = true
       <-> ∃ data, b = Responds data
                   ∧ getProp data "status" = Ok (Some (Json.JStr "sent")))
    ∧ (forall data,
         b = Responds data ->
         getProp data "status" ≠ Ok (Some (Json.JStr "sent")) ->
         success r = false)
    ∧ (forall req r', (settle relay (FetchCommand req)).1 ≠ SResult r')
    ∧ (forall req,
         settle relay (FetchCommand req)
         = match relay req with
           | TransportError e => (SUndefined, [e])
           | answer => (SResponse answer, [])
           end).
Proof.
  intros relay action params b r.
  assert (success r = true
          <-> ∃ data, b = Responds data
                      ∧ getProp data "status" = Ok (Some (Json.JStr "sent")))
    as Hiff.
  { unfold r, b. rewrite sendToBridge_eq.
    destruct (relay (actionRequest action params)) as [e|e|data];
      [by split; [|intros (? & ? & ?)]..|].
    split.
    - intros Hs. exists data. split; [done|].
      destruct data; try done. cbn in Hs |- *.
      apply isSent_true in Hs. by rewrite Hs.
    - intros (data' & [= <-] & Hst).
      destruct data; try done. cbn in Hst |- *.
      injection Hst as Hst. by rewrite Hst. }
  split; [reflexivity|]. split; [|split; [done|split; [|split]]].
  - unfold r, b. rewrite sendToBridge_eq. by intros e [-> | ->].
  - intros data Hb Hst. apply not_true_is_false. intros Hr.
    apply Hiff in Hr as (data' & Hb' & Hst').
    rewrite Hb in Hb'. injection Hb' as <-. done.
  - intros req r'. unfold settle. by destruct (relay req).
  - intros req. unfold settle. by destruct (relay req).
Qed.

(** *** The idempotency key *)

Lemma to_int_nonnil (z : Z) :
  Z.to_int z ≠ Decimal.Pos Decimal.Nil ∧ Z.to_int z ≠ Decimal.Neg Decimal.Nil.
Proof.
  destruct z as [|p|p]; simpl; split; try done;
    intros [= H]; by apply DecimalPos.Unsigned.to_uint_nonnil in H.
Qed.

Lemma of_number_inj (d1 d2 : Z) :
  JsString.of_number d1 = JsString.of_number d2 -> d1 = d2.
Proof.
  unfold JsString.of_number. intros H.
  apply (f_equal NilZero.int_of_string) in H.
  rewrite !NilZero.isi in H by apply to_int_nonnil.
  injection H as H. by apply DecimalZ.to_int_inj.
Qed.

Lemma append_cons c (s t : string) : String c s +:+ t = String c (s +:+ t).
Proof. reflexivity. Qed.

Lemma append_nil_r (s : string) : s +:+ EmptyString = s.
Proof. induction s as [|c s IH]; [done|]. by rewrite append_cons, IH. Qed.

Lemma append_assoc (s t u : string) : (s +:+ t) +:+ u = s +:+ (t +:+ u).
Proof. induction s as [|c s IH]; [done|]. by rewrite !append_cons, IH. Qed.

(** Two ways to split one string: one prefix extends the other. *)
Lemma append_eq_split (s1 t1 s2 t2 : string) :
  s1 +:+ t1 = s2 +:+ t2 ->
  (∃ w, s1 = s2 +:+ w ∧ t2 = w +:+ t1) ∨ (∃ w, s2 = s1 +:+ w ∧ t1 = w +:+ t2).
Proof.
  revert s2. induction s1 as [|c1 s1 IH]; intros s2 H.
  - right. exists s2. by split.
  - destruct s2 as [|c2 s2].
    + left. exists (String c1 s1). by split.
    + simpl in H. injection H as -> H.
      destruct (IH _ H) as [(w & -> & ->)|(w & -> & ->)];
        [left | right]; by exists w.
Qed.

Lemma quoteScan_app q s t :
  quoteScan q (s +:+ t) = q' ← quoteScan q s; quoteScan q' t.
Proof.
  revert q. induction s as [|c s IH]; intros q; [done|].
  simpl. destruct (quoteStep q c) as [q'|]; [apply IH | done].
Qed.

Lemma quoteScan_escape_byte c : quoteScan Inside (Json.escape_byte c) = Some Inside.
Proof.
  destruct c as [[] [] [] [] [] [] [] []]; vm_compute; reflexivity.
Qed.

Lemma quoteScan_escape s : quoteScan Inside (Json.escape s) = Some Inside.
Proof.
  induction s as [|c s IH]; [done|].
  simpl. by rewrite quoteScan_app, quoteScan_escape_byte.
Qed.

Lemma quoteScan_plain c t :
  quoteStep Outside c = Some Outside ->
  quoteScan Outside (String c EmptyString +:+ t) = quoteScan Outside t.
Proof.
  intros H.
  change (quoteScan Outside (String c EmptyString +:+ t))
    with (q' ← quoteStep Outside c; quoteScan q' t).
  by rewrite H.
Qed.

Lemma quoteScan_quote s t : quoteScan Outside (Json.quote s +:+ t) = quoteScan Outside t.
Proof.
  rewrite quoteScan_app. unfold Json.quote.
  change (quoteScan Outside (String Json.dquote ?x))
    with (quoteScan Inside x).
  by rewrite quoteScan_app, quoteScan_escape.
Qed.

Lemma stringify_paramsJson props :
  Json.stringify (paramsJson props) = "{" +:+ Json.join (member <$> props) +:+ "}".
Proof.
  unfold paramsJson. cbn [Json.stringify]. do 2 f_equal.
  rewrite map_map. done.
Qed.

Lemma quoteScan_member kv t :
  quoteScan Outside (member kv +:+ t) = quoteScan Outside t.
Proof.
  unfold member. rewrite !append_assoc, quoteScan_quote.
  rewrite quoteScan_plain by done. apply quoteScan_quote.
Qed.

Lemma quoteScan_members props t :
  quoteScan Outside (Json.join (member <$> props) +:+ t) = quoteScan Outside t.
Proof.
  induction props as [|kv props IH]; [done|].
  destruct props as [|kv' props].
  - cbn [fmap list_fmap Json.join]. apply quoteScan_member.
  - change (Json.join (member <$> kv :: kv' :: props))
      with (member kv +:+ "," +:+ Json.join (member <$> kv' :: props)).
    rewrite !append_assoc, quoteScan_member.
    rewrite quoteScan_plain by done. apply IH.
Qed.

(** The scan accepts every key text and ends outside a string. *)
Lemma quoteScan_argsKey a : quoteScan Outside (argsKey a) = Some Outside.
Proof.
  destruct a as [props|]; [|done].
  cbn [argsKey]. rewrite stringify_paramsJson.
  rewrite quoteScan_plain by done. by rewrite quoteScan_members.
Qed.

Lemma argsKey_nonempty a : argsKey a ≠ EmptyString.
Proof. destruct a as [props|]; [|done]. cbn [argsKey]. by rewrite stringify_paramsJson. Qed.

(** Scans of one text from outside and from inside a string cannot both
    succeed and end outside. *)
Lemma quoteScan_complement s q1 q2 :
  (q1 = Outside ∧ q2 = Inside) ∨ (q1 = Inside ∧ q2 = Outside) ->
  quoteScan q1 s = Some Outside -> quoteScan q2 s = Some Outside -> False.
Proof.
  revert q1 q2. induction s as [|c s IH]; intros q1 q2 Hq H1 H2.
  - simpl in H1, H2. destruct Hq as [[-> ->]|[-> ->]]; congruence.
  - cbn [quoteScan] in H1, H2.
    destruct (quoteStep q1 c) as [q1'|] eqn:Hs1; [|done].
    destruct (quoteStep q2 c) as [q2'|] eqn:Hs2; [|done].
    cbn [mbind option_bind] in H1, H2.
    apply (IH q1' q2'); [|done|done].
    destruct Hq as [[-> ->]|[-> ->]]; cbn [quoteStep] in Hs1, Hs2;
      destruct (Ascii.eqb c Json.dquote);
      destruct (Ascii.eqb c backslash); simpl in Hs1, Hs2;
      try destruct (Ascii.eqb c dash); simpl in Hs1, Hs2;
      try done; injection Hs1 as <-; injection Hs2 as <-; auto.
Qed.

(** An accepted text holds a dash only inside a string. *)
Lemma quoteScan_dash w r q :
  quoteScan Outside (w +:+ String dash r) = Some q ->
  quoteScan Inside r = Some q.
Proof.
  rewrite quoteScan_app. destruct (quoteScan Outside w) as [[| |]|]; try done.
Qed.

(** No key text ends, dash included, in another key text. *)
Lemma argsKey_not_suffix a1 a2 w : argsKey a2 ≠ w +:+ String dash (argsKey a1).
Proof.
  intros H. pose proof (quoteScan_argsKey a2) as H2. rewrite H in H2.
  apply quoteScan_dash in H2.
  by apply (quoteScan_complement (argsKey a1) Outside Inside);
    [left | apply quoteScan_argsKey | ].
Qed.

Lemma argsKey_no_final_dash a w : argsKey a ≠ w +:+ String dash EmptyString.
Proof.
  intros H. pose proof (quoteScan_argsKey a) as H2. rewrite H in H2.
  by apply quoteScan_dash in H2.
Qed.

Lemma uint_no_dash u w r : NilEmpty.string_of_uint u ≠ w +:+ String dash r.
Proof.
  revert w. induction u as [|u IH|u IH|u IH|u IH|u IH|u IH|u IH|u IH|u IH|u IH];
    intros [|c w] H; try discriminate H;
    rewrite append_cons in H; injection H as _ H; by apply IH in H.
Qed.

(** The rendering of a date holds a dash at most in front. *)
Lemma of_number_dash d w r :
  JsString.of_number d = w +:+ String dash r -> w = EmptyString.
Proof.
  unfold JsString.of_number, NilZero.string_of_int, NilZero.string_of_uint.
  destruct w as [|c w]; [done|]. rewrite append_cons. intros H. exfalso.
  assert (forall u, NilZero.string_of_uint u ≠ w +:+ String dash r) as Hu.
  { intros u Hu. unfold NilZero.string_of_uint in Hu.
    destruct u; try (by apply uint_no_dash in Hu). by destruct w as [|? []]. }
  destruct (Z.to_int d) as [u|u].
  - apply (uint_no_dash u (String c w) r).
    destruct u; try exact H.
    exfalso. injection H as _ H. by destruct w.
  - injection H as _ H. by apply Hu in H.
Qed.

Lemma append_nonempty_last (n k m : string) c :
  k ≠ EmptyString ->
  n +:+ k = m +:+ String c EmptyString ->
  ∃ k', k = k' +:+ String c EmptyString.
Proof.
  intros Hk H. apply append_eq_split in H as [(w & -> & Hw)|(w & -> & Hw)].
  - destruct w as [|c' w].
    + by exists EmptyString.
    + rewrite append_cons in Hw. injection Hw as _ Hw.
      destruct w; [by destruct k | discriminate Hw].
  - by exists w.
Qed.

(** Two keys split at the dash before the date in the same place. *)
Lemma key_tail_aligned n1 n2 a1 a2 d1 d2 w :
  String dash (JsString.of_number d2) = w +:+ String dash (JsString.of_number d1) ->
  n1 +:+ String dash (argsKey a1) = (n2 +:+ String dash (argsKey a2)) +:+ w ->
  w = EmptyString.
Proof.
  intros Ht HL. destruct w as [|c w]; [done|]. exfalso.
  rewrite append_cons in Ht. injection Ht as <- Ht.
  apply of_number_dash in Ht as ->.
  change (n1 +:+ String dash (argsKey a1))
    with (n1 +:+ (String dash EmptyString +:+ argsKey a1)) in HL.
  rewrite <- append_assoc in HL.
  apply append_nonempty_last in HL as [k' Hk']; [|apply argsKey_nonempty].
  by apply argsKey_no_final_dash in Hk'.
Qed.

(** And at the dash after the name. *)
Lemma key_head_aligned a1 a2 w :
  String dash (argsKey a2) = w +:+ String dash (argsKey a1) ->
  w = EmptyString.
Proof.
  intros H. destruct w as [|c w]; [done|]. exfalso.
  rewrite append_cons in H. injection H as _ H.
  by apply argsKey_not_suffix in H.
Qed.

Lemma callId_split fc d :
  callId fc d
  = (name fc +:+ String dash (argsKey (args fc)))
    +:+ String dash (JsString.of_number d).
Proof.
  unfold callId.
  change (name fc +:+ String dash (argsKey (args fc)))
    with (name fc +:+ (String dash EmptyString +:+ argsKey (args fc))).
  change (String dash (JsString.of_number d))
    with (String dash EmptyString +:+ JsString.of_number d).
  by rewrite !append_assoc.
Qed.

(** The key determines the name, the text of the arguments and the date. *)
Lemma callId_inj fc1 d1 fc2 d2 :
  callId fc1 d1 = callId fc2 d2 ->
  name fc1 = name fc2 ∧ argsKey (args fc1) = argsKey (args fc2) ∧ d1 = d2.
Proof.
  rewrite !callId_split. intros H.
  assert (name fc1 +:+ String dash (argsKey (args fc1))
          = name fc2 +:+ String dash (argsKey (args fc2))
          ∧ JsString.of_number d1 = JsString.of_number d2) as [HL Ht].
  { apply append_eq_split in H as [(w & HL & Ht)|(w & HL & Ht)].
    - pose proof (key_tail_aligned _ _ _ _ _ _ w Ht HL) as ->.
      rewrite append_nil_r in HL. by injection Ht as ->.
    - pose proof (key_tail_aligned _ _ _ _ _ _ w Ht HL) as ->.
      rewrite append_nil_r in HL. by injection Ht as ->. }
  apply of_number_inj in Ht as ->.
  apply append_eq_split in HL as [(w & Hn & Hk)|(w & Hn & Hk)].
  - pose proof (key_head_aligned _ _ w Hk) as ->.
    rewrite append_nil_r in Hn. by injection Hk as ->.
  - pose proof (key_head_aligned _ _ w Hk) as ->.
    rewrite append_nil_r in Hn. by injection Hk as ->.
Qed.

(** C1. A function call is identified by its name, the text of its
    arguments and the date of its log entry: two calls have the same key
    exactly when they agree on the three. From the mounted component on,
    whatever the sequence of effect runs and settled promises: once a run has
    seen a log in which a model-turn part carries a function call (once,
    twice or more often), the relay calls started for the key of that call
    number exactly one. For the log of two identical server turns with
    [create_task({title: "Buy milk"})] the single call is
    [sendToBridge("create_task", {title: "Buy milk"})]. *)
Theorem dispatch_exactly_once :
  (forall fc1 d1 fc2 d2,
     name fc1 = name fc2 ∧ argsKey (args fc1) = argsKey (args fc2) ∧ d1 = d2
     <-> callId fc1 d1 = callId fc2 d2)
  ∧ (forall steps logs log fc,
       RunEffect logs ∈ steps -> log ∈ logs -> fc ∈ functionCalls log ->
       relayCount (callId fc (date log)) (relayLog (exec mounted steps)) = 1)
  ∧ relayLog (exec mounted [RunEffect Scenario.twice])
    = [(callId Scenario.createTask Scenario.t0,
        SendToBridge "create_task" [("title", "Buy milk")])].
Proof.
  split; [|split].
  - intros fc1 d1 fc2 d2. split; [|apply callId_inj].
    unfold callId. by intros (-> & -> & ->).
  - intros steps logs log fc Hin Hlog Hfc. rewrite exec_mounted_count.
    destruct (decide (callId fc (date log) ∈ handledCallsRef (exec mounted steps)))
      as [|Hout]; [done|].
    exfalso. apply Hout, (handled_after_run _ _ logs); [done|].
    by apply (elem_of_callIds logs log fc).
  - by vm_compute.
Qed.

(** C9. The key of a function call is its name, the JSON text of its
    arguments and the date of the log entry in milliseconds, joined with
    dashes, and two keys are equal exactly when these three parts are. Hence,
    once a call is handled, the same call in a log entry with another date
    has another key and gets a relay call of its own, and so does a call with
    the same name and date whose arguments serialise differently: the two
    property lists of [Scenario.searchAB] and [Scenario.searchBA] are equal
    as maps, yet both calls are sent. *)
Theorem callId_joins_name_args_date :
  (forall fc d,
     callId fc d
     = name fc +:+ "-" +:+ argsKey (args fc) +:+ "-" +:+ JsString.of_number d)
  ∧ (forall props, argsKey (Some props) = Json.stringify (paramsJson props))
  ∧ (forall fc1 d1 fc2 d2,
       callId fc1 d1 = callId fc2 d2
       <-> name fc1 = name fc2 ∧ argsKey (args fc1) = argsKey (args fc2) ∧ d1 = d2)
  ∧ (forall fc d1 d2 logs,
       d1 ≠ d2 -> callId fc d2 ∈ callIds logs ->
       callId fc d1 ≠ callId fc d2
       ∧ relayCount (callId fc d2) (started (logEffect {[callId fc d1]} logs)) = 1)
  ∧ (forall n a1 a2 d logs,
       argsKey a1 ≠ argsKey a2 ->
       callId {| name := n; args := a2 |} d ∈ callIds logs ->
       callId {| name := n; args := a1 |} d ≠ callId {| name := n; args := a2 |} d
       ∧ relayCount (callId {| name := n; args := a2 |} d)
           (started (logEffect {[callId {| name := n; args := a1 |} d]} logs)) = 1)
  ∧ ((forall k, Json.lookup k (argsOrEmpty (args Scenario.searchAB))
                = Json.lookup k (argsOrEmpty (args Scenario.searchBA)))
     ∧ argsKey (args Scenario.searchAB) ≠ argsKey (args Scenario.searchBA)
     ∧ started (logEffect ∅
                  [Scenario.serverTurn Scenario.t0
                     [Scenario.callPart Scenario.searchAB;
                      Scenario.callPart Scenario.searchBA]])
       = [(callId Scenario.searchAB Scenario.t0,
           SendToBridge "search" [("query", "milk"); ("scope", "vault")]);
          (callId Scenario.searchBA Scenario.t0,
           SendToBridge "search" [("scope", "vault"); ("query", "milk")])]).
Proof.
  assert (forall id1 id2 logs,
    id1 ≠ id2 -> id2 ∈ callIds logs ->
    relayCount id2 (started (logEffect {[id1]} logs)) = 1) as Hother.
  { intros id1 id2 logs Hne Hin. rewrite logEffect_count.
    destruct (decide (id2 ∈ callIds logs ∧ id2 ∉ ({[id1]} : gset string)))
      as [|Hno]; [done|].
    exfalso. apply Hno. split; [done | set_solver]. }
  split; [done|]. split; [done|]. split; [|split; [|split]].
  - intros fc1 d1 fc2 d2. split; [apply callId_inj|].
    unfold callId. by intros (-> & -> & ->).
  - intros fc d1 d2 logs Hd Hin.
    assert (callId fc d1 ≠ callId fc d2) as Hne.
    { intros H. by apply callId_inj in H as (_ & _ & ?). }
    split; [done | by apply Hother].
  - intros n a1 a2 d logs Ha Hin.
    assert (callId {| name := n; args := a1 |} d ≠ callId {| name := n; args := a2 |} d)
      as Hne.
    { intros H. by apply callId_inj in H as (_ & ? & _). }
    split; [done | by apply Hother].
  - split; [|split].
    + intros k. simpl.
      destruct (String.eqb k "query") eqn:Hq;
        destruct (String.eqb k "scope") eqn:Hs; try done.
      apply String.eqb_eq in Hq, Hs. by subst.
    + by vm_compute.
    + by vm_compute.
Qed.

(** *** The arguments text determines the arguments *)

Lemma unescape1_escape_byte c rest :
  unescape1 (Json.escape_byte c +:+ rest) = Some (c, rest).
Proof. destruct c as [[] [] [] [] [] [] [] []]; reflexivity. Qed.

Lemma escape_inj_prefix s1 s2 r1 r2 :
  Json.escape s1 +:+ String Json.dquote r1 = Json.escape s2 +:+ String Json.dquote r2 ->
  s1 = s2 ∧ r1 = r2.
Proof.
  revert s2. induction s1 as [|c1 s1 IH]; intros [|c2 s2] H.
  - by injection H as ->.
  - apply (f_equal unescape1) in H. cbn [Json.escape] in H.
    rewrite append_assoc, unescape1_escape_byte in H. done.
  - apply (f_equal unescape1) in H. cbn [Json.escape] in H.
    rewrite append_assoc, unescape1_escape_byte in H. done.
  - apply (f_equal unescape1) in H. cbn [Json.escape] in H.
    rewrite !append_assoc, !unescape1_escape_byte in H.
    injection H as -> H. by destruct (IH _ H) as [-> ->].
Qed.

Lemma quote_app s r :
  Json.quote s +:+ r = String Json.dquote (Json.escape s +:+ String Json.dquote r).
Proof.
  unfold Json.quote. rewrite append_cons. f_equal. by rewrite append_assoc.
Qed.

(** No string literal is the beginning of another one. *)
Lemma quote_inj_prefix s1 s2 r1 r2 :
  Json.quote s1 +:+ r1 = Json.quote s2 +:+ r2 -> s1 = s2 ∧ r1 = r2.
Proof.
  rewrite !quote_app. intros H. injection H as H. by apply escape_inj_prefix.
Qed.

Lemma member_inj_prefix kv1 kv2 r1 r2 :
  member kv1 +:+ r1 = member kv2 +:+ r2 -> kv1 = kv2 ∧ r1 = r2.
Proof.
  unfold member. rewrite !append_assoc. intros H.
  apply quote_inj_prefix in H as [Hk H].
  apply String.app_inj in H.
  apply quote_inj_prefix in H as [Hv ->].
  split; [|done]. destruct kv1, kv2. simpl in *. by subst.
Qed.

Lemma join_cons_app m ms t :
  Json.join (m :: ms) +:+ t
  = m +:+ match ms with
          | [] => t
          | _ :: _ => String "," (Json.join ms +:+ t)
          end.
Proof.
  destruct ms as [|m' ms]; [done|].
  change (Json.join (m :: m' :: ms)) with (m +:+ "," +:+ Json.join (m' :: ms)).
  by rewrite !append_assoc.
Qed.

Lemma string_cons_inj c (a b : string) : String c a = String c b -> a = b.
Proof. by intros [= ->]. Qed.

Lemma members_inj p1 p2 r1 r2 :
  Json.join (member <$> p1) +:+ String "}" r1
  = Json.join (member <$> p2) +:+ String "}" r2 ->
  p1 = p2 ∧ r1 = r2.
Proof.
  revert p2. induction p1 as [|kv1 p1 IH]; intros [|kv2 p2] H.
  - by injection H as ->.
  - exfalso. rewrite fmap_cons, join_cons_app in H. unfold member in H.
    rewrite !append_assoc, quote_app in H. injection H as Hc _.
    by vm_compute in Hc.
  - exfalso. rewrite fmap_cons, join_cons_app in H. unfold member in H.
    rewrite !append_assoc, quote_app in H. injection H as Hc _.
    by vm_compute in Hc.
  - rewrite !fmap_cons, !join_cons_app in H.
    apply member_inj_prefix in H as [-> H].
    destruct p1 as [|kv1' p1], p2 as [|kv2' p2].
    + by injection H as ->.
    + done.
    + done.
    + rewrite !fmap_cons in H. cbv iota in H. rewrite <- !fmap_cons in H.
      apply string_cons_inj in H. by destruct (IH _ H) as [-> ->].
Qed.

Lemma argsKey_inj a1 a2 : argsKey a1 = argsKey a2 -> a1 = a2.
Proof.
  destruct a1 as [p1|], a2 as [p2|]; cbn [argsKey];
    rewrite ?stringify_paramsJson; intros H; try done.
  rewrite !append_cons in H. injection H as H.
  change ("}" : string) with (String "}" EmptyString) in H.
  by apply members_inj in H as [-> _].
Qed.

(** *** Routing of a function call to the relay *)




End Properties.

(** ** The scenarios, evaluated *)

Section Scenarios.

Import Scenario.

Local Abbreviation url := bridgeUrl.
Local Abbreviation secret := bridgeSecret.


Lemma fresh_in_empty id (es : list ConversationEntry) :
  id ∉ handledCalls {| entries := es; handledCalls := ∅; started := [] |}.
Proof. apply not_elem_of_empty. Qed.

(** C2, on the code. The log holds one server turn with a function call.
    The first run of the effect derives the announcement of the call; the
    second run over the same log finds the key handled and derives an empty
    conversation. *)
Theorem rerun_loses_announcement :
  let logs := [serverTurn t0 [callPart createTask]] in
  let s1 := step url secret mounted (RunEffect logs) in
  let s2 := step url secret s1 (RunEffect logs) in
  conversation s1 = [announcement createTask t0]
  ∧ conversation s2 = []
  ∧ conversation s1 ≠ conversation s2.
Proof. by vm_compute. Qed.

(** C3, as stated, fails: the [send_message] request that ends in a
    transport error yields [undefined], not a result with [success: false]. *)
Lemma command_failure_has_no_result :
  ¬ (forall (relay : Relay) c,
       (forall data, relay (requestOf url secret c) = Responds data ->
                     getProp data "status" ≠ Ok (Some (Json.JStr "sent"))) ->
       ∃ msg, (settle url secret relay c).1
              = SResult {| success := false; resultMessage := msg |}).
Proof.
  intros H.
  destruct (H unreachable (dispatch url secret statusPlease)) as [msg Hmsg];
    [done | discriminate Hmsg].
Qed.

(** C4, on the code. A server turn carries a function call; the first run
    of the effect announces it and starts the relay call, which fails without
    a trace in the conversation or on the console. When the next log entry
    arrives the effect runs again: the new entry is derived, and the
    announcement is gone. *)
Theorem later_event_drops_announcement :
  let call := serverTurn t0 [callPart createTask] in
  let thanks := userTurn (t0 + 1000) [textPart "thanks"] in
  let s1 := step url secret mounted (RunEffect [call]) in
  let s2 := step url secret s1 (SettleCall 0 unreachable) in
  let s3 := step url secret s2 (RunEffect [call; thanks]) in
  inflight s1 = [SendToBridge "create_task" [("title", "Buy milk")]]
  ∧ conversation s1 = [announcement createTask t0]
  ∧ sendToBridge url secret unreachable "create_task" [("title", "Buy milk")]
    = {| success := false;
         resultMessage := Json.JStr "Bridge error: TypeError: Failed to fetch" |}
  ∧ conversation s2 = [announcement createTask t0]
  ∧ console s2 = []
  ∧ conversation s3 = [{| role := user; text := "thanks"; time := t0 + 1000 |}]
  ∧ announcement createTask t0 ∉ conversation s3.
Proof.
  do 6 (split; [by vm_compute|]).
  intros Hin. apply list_elem_of_singleton in Hin. by vm_compute in Hin.
Qed.

Lemma dispatch_exactly_once_witness :
  RunEffect twice ∈ [RunEffect twice]
  ∧ serverTurn t0 [callPart createTask] ∈ twice
  ∧ createTask ∈ functionCalls (serverTurn t0 [callPart createTask])
  ∧ relayCount (callId createTask t0)
      (relayLog (exec url secret mounted [RunEffect twice])) = 1.
Proof.
  split; [by left|]. split; [by left|]. split; [by left|].
  apply (proj1 (proj2 (dispatch_exactly_once url secret)) [RunEffect twice] twice
           (serverTurn t0 [callPart createTask]) createTask);
    by left.
Defined.

Lemma sendToBridge_fails_closed_witness :
  (unreachable (actionRequest url secret "create_task" [("title", "Buy milk")])
   = TransportError "TypeError: Failed to fetch"
   ∨ unreachable (actionRequest url secret "create_task" [("title", "Buy milk")])
     = MalformedBody "TypeError: Failed to fetch")
  ∧ sendToBridge url secret unreachable "create_task" [("title", "Buy milk")]
    = {| success := false;
         resultMessage := Json.JStr "Bridge error: TypeError: Failed to fetch" |}.
Proof.
  split; [by left|].
  exact (proj1 (proj2 (sendToBridge_fails_closed url secret unreachable
                         "create_task" [("title", "Buy milk")]))
           "TypeError: Failed to fetch" (or_introl eq_refl)).
Defined.


Lemma text_part_filter_witness :
  [userTurn 5 [textPart "hello"; textPart " "]; serverTurn 6 [textPart "hi"]] !! 0
  = Some (userTurn 5 [textPart "hello"; textPart " "])
  ∧ ∃ (us : list (list ConversationEntry))
      (ms : list (list ConversationEntry * list ConversationEntry)),
      entries (logEffect url secret ∅
                 [userTurn 5 [textPart "hello"; textPart " "];
                  serverTurn 6 [textPart "hi"]])
      = [] ++ (concat us ++ concat ((fun ta => ta.1 ++ ta.2) <$> ms))
        ++ [{| role := model; text := "hi"; time := 6 |}]
      ∧ Forall2 (fun p es =>
                   (blank (Part.text p) -> es = [])
                   ∧ (forall s, Part.text p = Some s -> ¬ blank (Some s) ->
                        es = [{| role := user; text := s; time := 5 |}]))
          [textPart "hello"; textPart " "] us
      ∧ Forall2 (fun p ta =>
                   ((blank (Part.text p) -> ta.1 = [])
                    ∧ (forall s, Part.text p = Some s -> ¬ blank (Some s) ->
                         ta.1 = [{| role := model; text := s; time := 5 |}]))
                   ∧ (ta.2 = []
                      ∨ ∃ fc, Part.functionCall p = Some fc
                              ∧ ta.2 = [announcement fc 5]))
          [] ms.
Proof.
  split; [reflexivity|].
  exact (text_part_filter url secret ∅
           [userTurn 5 [textPart "hello"; textPart " "];
            serverTurn 6 [textPart "hi"]]
           0 (userTurn 5 [textPart "hello"; textPart " "]) eq_refl).
Defined.

Lemma conversation_follows_log_order_witness :
  0 < 1
  ∧ [userTurn 1 [textPart "hello"]; serverTurn 2 [textPart "hi"]] !! 0
    = Some (userTurn 1 [textPart "hello"])
  ∧ [userTurn 1 [textPart "hello"]; serverTurn 2 [textPart "hi"]] !! 1
    = Some (serverTurn 2 [textPart "hi"])
  ∧ ∃ between after,
      entries (logEffect url secret ∅
                 [userTurn 1 [textPart "hello"]; serverTurn 2 [textPart "hi"]])
      = [] ++ [{| role := user; text := "hello"; time := 1 |}] ++ between
        ++ [{| role := model; text := "hi"; time := 2 |}] ++ after.
Proof.
  split; [lia|]. split; [reflexivity|]. split; [reflexivity|].
  apply (conversation_follows_log_order url secret ∅
           [userTurn 1 [textPart "hello"]; serverTurn 2 [textPart "hi"]]
           0 1 (userTurn 1 [textPart "hello"]) (serverTurn 2 [textPart "hi"]));
    [lia | reflexivity | reflexivity].
Defined.

Lemma handled_key_never_redispatched_witness :
  callId createTask t0
    ∈ handledCallsRef (step url secret mounted (RunEffect twice))
  ∧ relayCount (callId createTask t0)
      (relayLog (exec url secret (step url secret mounted (RunEffect twice))
                   [SettleCall 0 unreachable;
                    RunEffect twice]))
    = relayCount (callId createTask t0)
        (relayLog (step url secret mounted (RunEffect twice))).
Proof.
  assert (callId createTask t0
            ∈ handledCallsRef (step url secret mounted (RunEffect twice))) as Hin.
  { simpl. rewrite logEffect_handled. apply elem_of_union_r.
    apply elem_of_list_to_set. by left. }
  split; [exact Hin|].
  exact (proj1 (proj2 (handled_key_never_redispatched url secret _
    [SettleCall 0 unreachable; RunEffect twice]
    _ Hin))).
Defined.

Lemma callId_joins_name_args_date_witness :
  t0 ≠ (t0 + 1)%Z
  ∧ callId createTask (t0 + 1)
    ∈ callIds [serverTurn (t0 + 1) [callPart createTask]]
  ∧ relayCount (callId createTask (t0 + 1))
      (started (logEffect url secret {[callId createTask t0]}
                  [serverTurn (t0 + 1) [callPart createTask]])) = 1.
Proof.
  split; [done|]. split; [by left|].
  destruct (callId_joins_name_args_date url secret) as (_ & _ & _ & H & _).
  apply (H createTask t0 (t0 + 1)%Z); [done | by left].
Defined.


End Scenarios.

(** * Further properties *)

Section MoreEffectFacts.

Variables (VOICE_BRIDGE_URL VOICE_BRIDGE_SECRET : string).

Local Abbreviation serverPart := (serverPart VOICE_BRIDGE_URL VOICE_BRIDGE_SECRET).
Local Abbreviation handleFunctionCall :=
  (handleFunctionCall VOICE_BRIDGE_URL VOICE_BRIDGE_SECRET).
Local Abbreviation logStep := (logStep VOICE_BRIDGE_URL VOICE_BRIDGE_SECRET).
Local Abbreviation logEffect := (logEffect VOICE_BRIDGE_URL VOICE_BRIDGE_SECRET).
Local Abbreviation dispatch := (dispatch VOICE_BRIDGE_URL VOICE_BRIDGE_SECRET).
Local Abbreviation step := (step VOICE_BRIDGE_URL VOICE_BRIDGE_SECRET).
Local Abbreviation exec := (exec VOICE_BRIDGE_URL VOICE_BRIDGE_SECRET).
Local Abbreviation sendToBridge :=
  (sendToBridge VOICE_BRIDGE_URL VOICE_BRIDGE_SECRET).
Local Abbreviation settle := (settle VOICE_BRIDGE_URL VOICE_BRIDGE_SECRET).

(** ** The effect of the earlier [App.tsx] *)

Lemma contentTexts_cons r p ps :
  contentTexts r (p :: ps)
  = match Part.text p with
    | Some s =>
        if isContent (Some s) then (r, s) :: contentTexts r ps
        else contentTexts r ps
    | None => contentTexts r ps
    end.
Proof.
  unfold contentTexts. destruct (Part.text p) as [s|] eqn:Hp.
  - destruct (isContent (Some s)) eqn:Hc;
      change (omap ?f (p :: ps)) with
        (match f p with Some y => y :: omap f ps | None => omap f ps end);
      cbv beta; by rewrite Hp, Hc.
  - change (omap ?f (p :: ps)) with
      (match f p with Some y => y :: omap f ps | None => omap f ps end).
    cbv beta. by rewrite Hp.
Qed.

Lemma pushTexts_entries r d ps acc :
  entries (fold_left (fun a p => pushText r d p a) ps acc)
  = entries acc ++ ((fun rs => textEntry rs.1 d rs.2) <$> contentTexts r ps).
Proof.
  revert acc. induction ps as [|p ps IH]; intros acc.
  - simpl. by rewrite app_nil_r.
  - cbn [fold_left]. rewrite IH, contentTexts_cons.
    unfold pushText. destruct (Part.text p) as [s|]; [|done].
    destruct (isContent (Some s)); [|done].
    cbn [entries fmap list_fmap]. by rewrite <- app_assoc.
Qed.

Lemma logStepV1_entries_eq log acc :
  entries (logStepV1 acc log) = entries acc ++ textEntries log.
Proof.
  unfold logStepV1, textEntries, textParts.
  destruct (message log) as [|o]; [by rewrite app_nil_r|].
  simpl. rewrite fmap_app, app_assoc.
  assert (entries match turns o, turnComplete o with
                  | Some ts, Some _ => fold_left (userPart (date log)) ts acc
                  | _, _ => acc
                  end
          = entries acc
            ++ ((fun rs => textEntry rs.1 (date log) rs.2)
                  <$> match turns o, turnComplete o with
                      | Some ts, Some _ => contentTexts user ts
                      | _, _ => []
                      end)) as Hu.
  { destruct (turns o) as [ts|]; [|by rewrite app_nil_r].
    destruct (turnComplete o); [|by rewrite app_nil_r].
    apply (pushTexts_entries user). }
  destruct (modelParts o) as [ps|].
  - by rewrite pushTexts_entries, Hu.
  - simpl. by rewrite app_nil_r, Hu.
Qed.

Lemma logsV1_entries logs acc :
  entries (fold_left logStepV1 logs acc)
  = entries acc ++ (log ← logs; textEntries log).
Proof.
  revert acc. induction logs as [|log logs IH]; intros acc.
  - simpl. by rewrite app_nil_r.
  - cbn [fold_left]. rewrite IH, logStepV1_entries_eq. simpl.
    by rewrite <- app_assoc.
Qed.

Lemma logEffectV1_texts logs : logEffectV1 logs = (log ← logs; textEntries log).
Proof. unfold logEffectV1. by rewrite logsV1_entries. Qed.

(** X1. The earlier effect derives the conversation of a log that has grown
    by appending to the conversation of the log before: nothing derived
    earlier changes or moves. *)
Theorem logEffectV1_grows l1 l2 :
  logEffectV1 (l1 ++ l2) = logEffectV1 l1 ++ logEffectV1 l2.
Proof. rewrite !logEffectV1_texts. apply bind_app. Qed.

(** *** Runs with nothing to dispatch *)

Lemma relayCount_none (l : list (string * RelayCall)) :
  (forall id, relayCount id l = 0) -> l = [].
Proof.
  destruct l as [|[id c] l]; [done|]. intros H. specialize (H id).
  change ((id, c) :: l) with ([(id, c)] ++ l) in H.
  rewrite relayCount_app, relayCount_single in H.
  destruct (decide (id = id)); [lia | done].
Qed.

Lemma logEffect_nothing_new handled logs :
  (forall id, id ∈ callIds logs -> id ∈ handled) ->
  logEffect handled logs
  = {| entries := logEffectV1 logs; handledCalls := handled; started := [] |}.
Proof.
  intros Hall.
  destruct (logEffect_all_handled VOICE_BRIDGE_URL VOICE_BRIDGE_SECRET
              handled logs Hall) as [Hent Hhan].
  assert (started (logEffect handled logs) = []) as Hst.
  { apply relayCount_none. intros id. rewrite logEffect_count.
    destruct (decide (id ∈ callIds logs ∧ id ∉ handled)) as [[Hin Hout]|]; [|done].
    exfalso. by apply Hout, Hall. }
  destruct (logEffect handled logs). simpl in *. by subst.
Qed.

(** X2. A run that finds the key of every function call of the log handled,
    in particular a run over a log without function calls, derives exactly
    the entries of the earlier effect, starts no relay call and leaves the
    handled set as it is. *)
Theorem all_handled_like_V1 handled logs :
  (forall id, id ∈ callIds logs -> id ∈ handled) ->
  logEffect handled logs
  = {| entries := logEffectV1 logs; handledCalls := handled; started := [] |}.
Proof. apply logEffect_nothing_new. Qed.

(** *** Where the entries come from *)

Lemma userParts_entries d ts acc :
  entries (fold_left (userPart d) ts acc)
  = entries acc ++ ((fun rs => textEntry rs.1 d rs.2) <$> contentTexts user ts).
Proof. apply (pushTexts_entries user). Qed.

Lemma serverParts_provenance d ps acc e :
  e ∈ entries (fold_left (serverPart d) ps acc) ->
  e ∈ entries acc
  ∨ (∃ s, (model, s) ∈ contentTexts model ps ∧ e = textEntry model d s)
  ∨ (∃ fc, fc ∈ omap Part.functionCall ps ∧ e = announcement fc d).
Proof.
  revert acc. induction ps as [|p ps IH]; intros acc; [by left|].
  cbn [fold_left]. intros He.
  destruct (IH _ He) as [Hacc|[(s & Hs & ->)|(fc & Hfc & ->)]].
  - rewrite serverPart_eq, handleFunctionCall_eq in Hacc.
    assert (e ∈ entries (pushText model d p acc) ->
            e ∈ entries acc
            ∨ ∃ s, (model, s) ∈ contentTexts model (p :: ps)
                   ∧ e = textEntry model d s) as Htext.
    { rewrite contentTexts_cons. unfold pushText.
      destruct (Part.text p) as [s|]; [|by left].
      destruct (isContent (Some s)); [|by left].
      cbn [entries]. rewrite elem_of_app. intros [?|Hin]; [by left|].
      apply list_elem_of_singleton in Hin as ->.
      right. exists s. split; [by left | done]. }
    destruct (Part.functionCall p) as [fc|] eqn:Hfc.
    + destruct (decide (callId fc d ∈ handledCalls (pushText model d p acc))).
      * destruct (Htext Hacc) as [?|?]; [by left | right; by left].
      * cbn [entries] in Hacc. apply elem_of_app in Hacc as [Hacc|Hin].
        -- destruct (Htext Hacc) as [?|?]; [by left | right; by left].
        -- apply list_elem_of_singleton in Hin as ->.
           right; right. exists fc. split; [|done].
           simpl. rewrite Hfc. by left.
    + destruct (Htext Hacc) as [?|?]; [by left | right; by left].
  - right; left. exists s. split; [|done].
    rewrite contentTexts_cons. destruct (Part.text p) as [s'|]; [|done].
    destruct (isContent (Some s')); [by right | done].
  - right; right. exists fc. split; [|done].
    simpl. destruct (Part.functionCall p); [by right | done].
Qed.

Lemma logStep_provenance log acc e :
  e ∈ entries (logStep acc log) ->
  e ∈ entries acc
  ∨ e ∈ textEntries log
  ∨ (∃ fc, fc ∈ functionCalls log ∧ e = announcement fc (date log)).
Proof.
  rewrite logStep_eq. unfold textEntries, textParts, functionCalls.
  destruct (message log) as [|o]; [by left|].
  assert (e ∈ entries match turns o, turnComplete o with
                      | Some ts, Some _ => fold_left (userPart (date log)) ts acc
                      | _, _ => acc
                      end ->
          e ∈ entries acc
          ∨ e ∈ (fun rs => textEntry rs.1 (date log) rs.2)
                  <$> match turns o, turnComplete o with
                      | Some ts, Some _ => contentTexts user ts
                      | _, _ => []
                      end) as Hu.
  { destruct (turns o) as [ts|]; [|by left].
    destruct (turnComplete o); [|by left].
    rewrite userParts_entries, elem_of_app. tauto. }
  rewrite fmap_app.
  destruct (modelParts o) as [ps|].
  - intros He.
    destruct (serverParts_provenance _ _ _ _ He) as [Hacc|[(s & Hs & ->)|?]].
    + destruct (Hu Hacc) as [?|?]; [by left|]. right; left.
      apply elem_of_app. by left.
    + right; left. apply elem_of_app. right.
      apply list_elem_of_fmap. by exists (model, s).
    + by right; right.
  - intros He. destruct (Hu He) as [?|?]; [by left|]. right; left.
    apply elem_of_app. by left.
Qed.

(** X3. Every entry of a derived conversation comes from the log: it is the
    entry of a content text of some log entry, or the announcement of a
    function call of some log entry, with that log entry's date. *)
Theorem entries_provenance handled logs e :
  e ∈ entries (logEffect handled logs) ->
  ∃ log, log ∈ logs
         ∧ (e ∈ textEntries log
            ∨ ∃ fc, fc ∈ functionCalls log ∧ e = announcement fc (date log)).
Proof.
  rewrite logEffect_eq.
  assert (forall acc,
    e ∈ entries (fold_left logStep logs acc) ->
    e ∈ entries acc
    ∨ ∃ log, log ∈ logs
             ∧ (e ∈ textEntries log
                ∨ ∃ fc, fc ∈ functionCalls log ∧ e = announcement fc (date log)))
    as Hgen.
  { induction logs as [|log logs IH]; intros acc He; [by left|].
    cbn [fold_left] in He. destruct (IH _ He) as [Hacc|(log' & Hin & H)].
    - destruct (logStep_provenance _ _ _ Hacc) as [?|H]; [by left|].
      right. exists log. split; [by left | done].
    - right. exists log'. split; [by right | done]. }
  intros He. destruct (Hgen _ He) as [Hnil|?]; [|done].
  by apply elem_of_nil in Hnil.
Qed.

(** *** How many entries *)

Lemma serverParts_count d ps acc :
  length (entries (fold_left (serverPart d) ps acc)) + length (started acc)
  = length (entries acc) + length (contentTexts model ps)
    + length (started (fold_left (serverPart d) ps acc)).
Proof.
  revert acc. induction ps as [|p ps IH]; intros acc; [simpl; lia|].
  cbn [fold_left]. rewrite contentTexts_cons.
  specialize (IH (serverPart d acc p)).
  assert (length (entries (serverPart d acc p)) + length (started acc)
          = length (entries acc)
            + (match Part.text p with
               | Some s => if isContent (Some s) then 1 else 0
               | None => 0
               end)
            + length (started (serverPart d acc p))) as Hp.
  { rewrite serverPart_eq, handleFunctionCall_eq, pushText_handled.
    assert (length (entries (pushText model d p acc))
            = length (entries acc)
              + match Part.text p with
                | Some s => if isContent (Some s) then 1 else 0
                | None => 0
                end) as Ht.
    { unfold pushText. destruct (Part.text p) as [s|]; [|lia].
      destruct (isContent (Some s)); [|lia].
      cbn [entries]. rewrite length_app. cbn [length]. lia. }
    destruct (Part.functionCall p) as [fc|].
    - destruct (decide (callId fc d ∈ handledCalls acc)).
      + rewrite pushText_started. lia.
      + cbn [entries started]. rewrite !length_app, pushText_started.
        cbn [length]. lia.
    - rewrite pushText_started. lia. }
  destruct (Part.text p) as [s|]; [destruct (isContent (Some s))|];
    cbn [length] in *; lia.
Qed.

Lemma logStep_count log acc :
  length (entries (logStep acc log)) + length (started acc)
  = length (entries acc) + length (textParts log)
    + length (started (logStep acc log)).
Proof.
  rewrite logStep_eq. unfold textParts.
  destruct (message log) as [|o]; [simpl; lia|].
  rewrite length_app.
  assert (length (entries match turns o, turnComplete o with
                          | Some ts, Some _ => fold_left (userPart (date log)) ts acc
                          | _, _ => acc
                          end)
          = length (entries acc)
            + length match turns o, turnComplete o with
                     | Some ts, Some _ => contentTexts user ts
                     | _, _ => []
                     end
          ∧ started match turns o, turnComplete o with
                    | Some ts, Some _ => fold_left (userPart (date log)) ts acc
                    | _, _ => acc
                    end = started acc) as [Hu Hs].
  { destruct (turns o) as [ts|]; [|simpl; split; [lia | done]].
    destruct (turnComplete o); [|simpl; split; [lia | done]].
    rewrite userParts_entries, userParts_started, length_app, length_fmap.
    by split. }
  destruct (modelParts o) as [ps|].
  - pose proof (serverParts_count (date log) ps
                  match turns o, turnComplete o with
                  | Some ts, Some _ => fold_left (userPart (date log)) ts acc
                  | _, _ => acc
                  end) as H.
    rewrite Hs in H. lia.
  - rewrite Hs. simpl. lia.
Qed.

(** X4. A run derives one entry for each content text of the log and one
    for each relay call it starts, and no other. *)
Theorem entries_count handled logs :
  length (entries (logEffect handled logs))
  = length (log ← logs; textParts log)
    + length (started (logEffect handled logs)).
Proof.
  rewrite logEffect_eq.
  assert (forall acc,
    length (entries (fold_left logStep logs acc)) + length (started acc)
    = length (entries acc) + length (log ← logs; textParts log)
      + length (started (fold_left logStep logs acc))) as Hgen.
  { induction logs as [|log logs IH]; intros acc; [simpl; lia|].
    cbn [fold_left]. specialize (IH (logStep acc log)).
    pose proof (logStep_count log acc) as Hl.
    change (log0 ← log :: logs; textParts log0)
      with (textParts log ++ (log0 ← logs; textParts log0)).
    rewrite length_app. lia. }
  specialize (Hgen {| entries := []; handledCalls := handled; started := [] |}).
  simpl in Hgen. lia.
Qed.

(** *** The component over time, continued *)

(** X5. After any sequence of effect runs and settled promises the handled
    set holds what it held before and the keys of the function calls in the
    logs the runs went over, and nothing else. *)
Theorem handled_exactly_seen s steps id :
  id ∈ handledCallsRef (exec s steps)
  <-> id ∈ handledCallsRef s
      ∨ ∃ logs, RunEffect logs ∈ steps ∧ id ∈ callIds logs.
Proof.
  revert s. induction steps as [|st steps IH]; intros s.
  - simpl. split; [by left|]. intros [?|(logs & Hin & _)]; [done|].
    by apply elem_of_nil in Hin.
  - rewrite exec_cons, IH. split.
    + intros [Hin|(logs & Hin & Hid)].
      * destruct st as [logs|i relay].
        -- simpl in Hin. rewrite logEffect_handled in Hin.
           apply elem_of_union in Hin as [?|Hin]; [by left|].
           right. exists logs. split; [by left|].
           by apply elem_of_list_to_set in Hin.
        -- left. simpl in Hin. by destruct (inflight s !! i).
      * right. exists logs. split; [by right | done].
    + intros [Hin|(logs & Hin & Hid)].
      * left. by apply step_handled_mono.
      * apply elem_of_cons in Hin as [<-|Hin].
        -- left. simpl. rewrite logEffect_handled.
           apply elem_of_union_r. by apply elem_of_list_to_set.
        -- right. by exists logs.
Qed.

Lemma step_run_relayLog s logs :
  relayLog (step s (RunEffect logs))
  = relayLog s ++ started (logEffect (handledCallsRef s) logs).
Proof. reflexivity. Qed.

Lemma step_run_handled s logs :
  handledCallsRef (step s (RunEffect logs))
  = handledCalls (logEffect (handledCallsRef s) logs).
Proof. reflexivity. Qed.

Lemma exec_nil s : exec s [] = s.
Proof. reflexivity. Qed.

(** X6. Running the effect on a log and then on the log grown by further
    entries starts the same relay calls, in the same order, and leaves the
    same handled set as one run on the grown log. *)
Theorem batching_independent s l1 l2 :
  relayLog (exec s [RunEffect l1; RunEffect (l1 ++ l2)])
  = relayLog (exec s [RunEffect (l1 ++ l2)])
  ∧ handledCallsRef (exec s [RunEffect l1; RunEffect (l1 ++ l2)])
    = handledCallsRef (exec s [RunEffect (l1 ++ l2)]).
Proof.
  rewrite !exec_cons, !exec_nil, !step_run_relayLog, !step_run_handled.
  set (h := handledCallsRef s).
  set (h1 := handledCalls (logEffect h l1)).
  assert (logEffect h1 l1
          = {| entries := logEffectV1 l1; handledCalls := h1; started := [] |})
    as Hrerun.
  { apply logEffect_nothing_new. intros id Hid. unfold h1.
    rewrite logEffect_handled. apply elem_of_union_r.
    by apply elem_of_list_to_set. }
  rewrite (logEffect_app _ _ h1 l1 l2), Hrerun.
  rewrite (logEffect_app _ _ h l1 l2).
  cbn [started handledCalls prepend]. fold h1.
  by rewrite app_nil_l, app_assoc.
Qed.

(** *** What reaches the console *)

Lemma exec_console_quiet s steps :
  (forall logs log fc,
     RunEffect logs ∈ steps -> log ∈ logs -> fc ∈ functionCalls log ->
     name fc ≠ "send_message") ->
  (forall c, c ∈ inflight s -> ∃ action params, c = SendToBridge action params) ->
  console (exec s steps) = console s.
Proof.
  revert s. induction steps as [|st steps IH]; intros s Hlogs Hfly; [done|].
  rewrite exec_cons, IH.
  - destruct st as [logs|i relay]; [done|].
    simpl. destruct (inflight s !! i) as [c|] eqn:Hi; [|done].
    destruct (Hfly c) as (action & params & ->);
      [by apply list_elem_of_lookup; exists i|].
    simpl. by rewrite app_nil_r.
  - intros logs log fc Hin. apply Hlogs. by right.
  - intros c Hc. destruct st as [logs|i relay].
    + simpl in Hc. apply elem_of_app in Hc as [Hc|Hc]; [by apply Hfly|].
      apply list_elem_of_fmap in Hc as ([id c'] & -> & Hc).
      apply logEffect_started_announced in Hc
        as (log & fc & Hlog & Hfc & _ & -> & _).
      exists (name fc), (argsOrEmpty (args fc)).
      rewrite dispatch_eq.
      assert (name fc ≠ "send_message") as Hne
        by (apply (Hlogs logs log fc); [by left | done | done]).
      apply String.eqb_neq in Hne. by rewrite Hne.
    + simpl in Hc. destruct (inflight s !! i); [|by apply Hfly].
      simpl in Hc. by apply Hfly, (list_subseteq_delete i).
Qed.

(** X7. As long as no function call named [send_message] occurs in the
    logs, nothing is written to the console, however the relay behaves:
    [sendToBridge] swallows every failure. *)
Theorem console_quiet_without_send_message steps :
  (forall logs log fc,
     RunEffect logs ∈ steps -> log ∈ logs -> fc ∈ functionCalls log ->
     name fc ≠ "send_message") ->
  console (exec mounted steps) = [].
Proof.
  intros Hlogs. rewrite (exec_console_quiet mounted steps Hlogs); [done|].
  intros c Hc. by apply elem_of_nil in Hc.
Qed.

(** *** The message of a result *)

(** X8. The message [sendToBridge] returns is never empty or otherwise
    falsy, whatever the relay answers. *)
Theorem sendToBridge_message_truthy relay action params :
  Json.truthy (resultMessage (sendToBridge relay action params)) = true.
Proof.
  rewrite sendToBridge_eq.
  assert (forall v, Json.truthy (orSent v) = true) as Hor.
  { intros [m|]; [|done]. simpl. by destruct (Json.truthy m) eqn:Hm. }
  destruct (relay _) as [e|e|data]; [done | done |].
  destruct data; try done. apply Hor.
Qed.

End MoreEffectFacts.

(** *** A key determines its function call *)

(** X9. Two function calls have the same key exactly when they have the
    same name and the same arguments, property by property in the same
    order, and stand in log entries of the same date. *)
Theorem callId_determines_call fc1 d1 fc2 d2 :
  callId fc1 d1 = callId fc2 d2 <-> fc1 = fc2 ∧ d1 = d2.
Proof.
  split; [|by intros [-> ->]].
  intros H. apply callId_inj in H as (Hn & Ha & ->).
  apply argsKey_inj in Ha. split; [|done].
  destruct fc1, fc2. simpl in *. by subst.
Qed.

(** *** A request body determines what was asked *)

Section BodyFacts.

Variables (VOICE_BRIDGE_URL VOICE_BRIDGE_SECRET : string).

Local Abbreviation actionRequest :=
  (actionRequest VOICE_BRIDGE_URL VOICE_BRIDGE_SECRET).
Local Abbreviation commandRequest :=
  (commandRequest VOICE_BRIDGE_URL VOICE_BRIDGE_SECRET).

Lemma action_body action params :
  body (actionRequest action params)
  = ("{" +:+ Json.quote "secret" +:+ ":" +:+ Json.quote VOICE_BRIDGE_SECRET
     +:+ "," +:+ Json.quote "action" +:+ ":")
    +:+ Json.quote action
    +:+ ("," +:+ Json.quote "params" +:+ ":")
    +:+ Json.stringify (paramsJson params) +:+ "}".
Proof.
  unfold actionRequest. cbn [body].
  change (Json.stringify (Json.JObj ?l))
    with ("{" +:+ Json.join (map (fun kv => Json.quote kv.1 +:+ ":" +:+ Json.stringify kv.2) l) +:+ "}").
  cbn [map Json.join fst snd]. cbn [Json.stringify].
  fold (Json.stringify (paramsJson params)).
  by rewrite !append_assoc.
Qed.

(** X10. The body [sendToBridge] posts determines the action and the
    params: two calls with the same body have the same action and the same
    params, whatever characters these hold. *)
Theorem action_body_determines_call a1 p1 a2 p2 :
  body (actionRequest a1 p1) = body (actionRequest a2 p2) -> a1 = a2 ∧ p1 = p2.
Proof.
  rewrite !action_body. intros H.
  apply String.app_inj in H. apply quote_inj_prefix in H as [-> H].
  apply String.app_inj in H. rewrite !stringify_paramsJson, !append_assoc in H.
  apply String.app_inj in H.
  change ("}" +:+ "}") with (String "}" "}") in H.
  by apply members_inj in H as [-> _].
Qed.

End BodyFacts.

(** ** [saveTranscript] *)

Section TranscriptFacts.

Import Transcript.

Variables (toISOString toLocaleTimeString : Z -> string).

Local Abbreviation saveTranscript :=
  (saveTranscript toISOString toLocaleTimeString).
Local Abbreviation transcriptLines :=
  (transcriptLines toISOString toLocaleTimeString).
Local Abbreviation headerLines := (headerLines toISOString).
Local Abbreviation entryLine := (entryLine toLocaleTimeString).
Local Abbreviation ts := (ts toISOString).


Lemma list_ascii_app (s t : string) :
  list_ascii_of_string (s +:+ t) = list_ascii_of_string s ++ list_ascii_of_string t.
Proof. induction s as [|c s IH]; [done|]. rewrite append_cons. simpl. by rewrite IH. Qed.

Lemma length_append (s t : string) :
  String.length (s +:+ t) = String.length s + String.length t.
Proof. induction s as [|c s IH]; [done|]. rewrite append_cons. simpl. by rewrite IH. Qed.

Lemma replaceColons_no_colon s :
  ":"%char ∉ list_ascii_of_string (replaceColons s).
Proof.
  induction s as [|c s IH]; simpl; [apply not_elem_of_nil|].
  apply not_elem_of_cons. split; [|done].
  destruct (Ascii.eqb c ":") eqn:Hc; [done|].
  intros <-. by rewrite Ascii.eqb_refl in Hc.
Qed.

Lemma sliceTo_chars n s c :
  c ∈ list_ascii_of_string (sliceTo n s) -> c ∈ list_ascii_of_string s.
Proof.
  revert s. induction n as [|n IH]; intros [|c' s]; simpl; try done.
  - intros H. by apply elem_of_nil in H.
  - rewrite !elem_of_cons. intros [->|H]; [by left | right; by apply IH].
Qed.

Lemma sliceTo_length n s : String.length (sliceTo n s) = n `min` String.length s.
Proof.
  revert s. induction n as [|n IH]; intros [|c s]; simpl; try done.
  by rewrite IH.
Qed.

Lemma replaceColons_length s : String.length (replaceColons s) = String.length s.
Proof. induction s as [|c s IH]; [done|]. simpl. by rewrite IH. Qed.

(** X12. The name of the downloaded file is the first sixteen characters
    of the ISO rendering of the time of the call, colons replaced, followed
    by [.md]: it holds no colon and is at most nineteen characters long. *)
Theorem download_name_safe now conversation d :
  downloaded (saveTranscript now conversation) = Some d ->
  download d = ts now +:+ ".md"
  ∧ (":"%char ∉ list_ascii_of_string (download d))
  ∧ String.length (ts now) = 16 `min` String.length (toISOString now)
  ∧ String.length (download d) <= 19.
Proof.
  destruct conversation as [|e conversation]; [done|].
  intros [= <-]. cbn [download]. split; [done|]. split; [|split].
  - rewrite list_ascii_app, not_elem_of_app. split; [|by vm_compute; set_solver].
    intros H. apply sliceTo_chars in H. by apply replaceColons_no_colon in H.
  - unfold ts. by rewrite sliceTo_length, replaceColons_length.
  - rewrite length_append. unfold ts. rewrite sliceTo_length.
    change (String.length ".md") with 3.
    pose proof (Nat.le_min_l 16 (String.length (replaceColons (toISOString now)))).
    lia.
Qed.

Lemma transcriptLines_closed now conversation :
  transcriptLines now conversation
  = headerLines now conversation
    ++ (entry ← conversation; [entryLine entry; EmptyString]).
Proof.
  unfold transcriptLines.
  generalize (headerLines now conversation) as lines.
  induction conversation as [|e conversation IH]; intros lines.
  - simpl. by rewrite app_nil_r.
  - cbn [fold_left]. rewrite IH, bind_cons. by rewrite <- !app_assoc.
Qed.

(** X13. The transcript has six header lines and then, for each entry of
    the conversation in order, the line of the entry followed by an empty
    line. *)
Theorem transcript_lines_in_order now conversation :
  length (transcriptLines now conversation) = 6 + 2 * length conversation
  ∧ forall i entry,
      conversation !! i = Some entry ->
      transcriptLines now conversation !! (6 + 2 * i) = Some (entryLine entry)
      ∧ transcriptLines now conversation !! (7 + 2 * i) = Some EmptyString.
Proof.
  rewrite transcriptLines_closed.
  assert (forall (conv : list ConversationEntry),
    length (entry ← conv; [entryLine entry; EmptyString]) = 2 * length conv) as Hlen.
  { induction conv as [|e conv IH]; [done|].
    rewrite bind_cons, length_app, IH. simpl. lia. }
  assert (forall (conv : list ConversationEntry) i entry,
    conv !! i = Some entry ->
    (entry ← conv; [entryLine entry; EmptyString]) !! (2 * i) = Some (entryLine entry)
    ∧ (entry ← conv; [entryLine entry; EmptyString]) !! (1 + 2 * i) = Some EmptyString)
    as Hget.
  { induction conv as [|e conv IH]; intros i entry Hi; [done|].
    rewrite bind_cons. destruct i as [|i].
    - injection Hi as ->. by split.
    - simpl in Hi. destruct (IH _ _ Hi) as [H1 H2].
      replace (2 * S i) with (S (S (2 * i))) by lia.
      replace (1 + S (S (2 * i))) with (S (S (1 + 2 * i))) by lia.
      by split. }
  split.
  - rewrite length_app, Hlen. done.
  - intros i entry Hi. destruct (Hget _ _ _ Hi) as [H1 H2].
    assert (length (headerLines now conversation) = 6) as Hh by done.
    rewrite !lookup_app_r by (rewrite Hh; lia). rewrite Hh.
    replace (6 + 2 * i - 6) with (2 * i) by lia.
    replace (7 + 2 * i - 6) with (1 + 2 * i) by lia.
    by split.
Qed.

End TranscriptFacts.

(** ** [PasswordGate] *)

Section GateFacts.

Import PasswordGate.

Lemma unhex1_byte b rest :
  unhex1 (padStart 2 "0" (toString16 b) +:+ rest) = Some (b, rest).
Proof. destruct b as [[] [] [] [] [] [] [] []]; reflexivity. Qed.

Lemma byte_hex_shape b :
  ∃ h l, padStart 2 "0" (toString16 b) = String h (String l EmptyString)
         ∧ is_Some (hexValue h) ∧ is_Some (hexValue l).
Proof.
  destruct b as [[] [] [] [] [] [] [] []];
    eexists _, _; (split; [reflexivity | split; by eexists]).
Qed.

Lemma hex_shape hashArray :
  String.length (hex hashArray) = 2 * length hashArray
  ∧ forall c, c ∈ list_ascii_of_string (hex hashArray) -> is_Some (hexValue c).
Proof.
  induction hashArray as [|b rest [IHlen IHc]]; [split; [done|]|].
  - intros c Hc. by apply elem_of_nil in Hc.
  - cbn [hex]. destruct (byte_hex_shape b) as (h & l & -> & Hh & Hl).
    change (String h (String l EmptyString) +:+ hex rest)
      with (String h (String l (hex rest))).
    split.
    + cbn [String.length]. rewrite IHlen. simpl. lia.
    + intros c. cbn [list_ascii_of_string]. rewrite !elem_of_cons.
      intros [->|[->|Hc]]; [done | done | by apply IHc].
Qed.

(** X14. The hexadecimal rendering of a digest has two characters per byte,
    all of them lower-case hexadecimal digits. *)
Theorem hex_two_digits_per_byte hashArray :
  String.length (hex hashArray) = 2 * length hashArray
  ∧ forall c, c ∈ list_ascii_of_string (hex hashArray) -> is_Some (hexValue c).
Proof. apply hex_shape. Qed.

(** X15. Different digests have different hexadecimal renderings. *)
Theorem hex_injective l1 l2 : hex l1 = hex l2 -> l1 = l2.
Proof.
  revert l2. induction l1 as [|b1 l1 IH]; intros [|b2 l2] H.
  - done.
  - apply (f_equal unhex1) in H. cbn [hex] in H.
    by rewrite unhex1_byte in H.
  - apply (f_equal unhex1) in H. cbn [hex] in H.
    by rewrite unhex1_byte in H.
  - apply (f_equal unhex1) in H. cbn [hex] in H.
    rewrite !unhex1_byte in H. injection H as -> H. f_equal. by apply IH.
Qed.

Variable digest : string -> list ascii.

Local Abbreviation sha256 := (sha256 digest).
Local Abbreviation handleSubmit := (handleSubmit digest).
Local Abbreviation step := (step digest).
Local Abbreviation run := (run digest).

Lemma run_cons w e events : run w (e :: events) = run (step w e) events.
Proof. reflexivity. Qed.

Lemma run_app w l1 l2 : run w (l1 ++ l2) = run (run w l1) l2.
Proof. apply fold_left_app. Qed.

Lemma step_authenticated w e :
  authenticated (gate (step w e)) = true ->
  authenticated (gate w) = true
  ∨ (e = Submit ∧ sha256 (password (gate w)) = PASS_HASH).
Proof.
  destruct e as [v| |]; simpl.
  - by left.
  - unfold handleSubmit.
    destruct (String.eqb (sha256 (password (gate w))) PASS_HASH) eqn:Hh; simpl.
    + intros _. right. split; [done|]. by apply String.eqb_eq.
    + by left.
  - destruct (timers w); by left.
Qed.

(** X16. The gate shows its children only if the session storage it was
    mounted with already held the flag, or the form was submitted at a
    moment when the hash of the password typed was [PASS_HASH]; the digest
    then has 32 bytes. *)
Theorem gate_opens_only_on_hash storage events :
  render (run (mount storage) events) = Children ->
  storage !! "vc-auth" = Some "true"
  ∨ ∃ before after,
      events = before ++ Submit :: after
      ∧ sha256 (password (gate (run (mount storage) before))) = PASS_HASH
      ∧ length (digest (password (gate (run (mount storage) before)))) = 32.
Proof.
  assert (forall w,
    authenticated (gate (run w events)) = true ->
    authenticated (gate w) = true
    ∨ ∃ before after,
        events = before ++ Submit :: after
        ∧ sha256 (password (gate (run w before))) = PASS_HASH) as Hgen.
  { induction events as [|e events IH]; intros w Hw; [by left|].
    rewrite run_cons in Hw.
    destruct (IH _ Hw) as [Hs|(before & after & -> & Hh)].
    - destruct (step_authenticated _ _ Hs) as [?|[-> Hh]]; [by left|].
      right. by exists [], events.
    - right. by exists (e :: before), after. }
  unfold render. intros Hr.
  destruct (authenticated (gate (run (mount storage) events))) eqn:Ha; [|done].
  destruct (Hgen _ Ha) as [Hm|(before & after & -> & Hh)].
  - left. simpl in Hm. by apply bool_decide_eq_true in Hm.
  - right. exists before, after. split; [done|]. split; [done|].
    pose proof (proj1 (hex_shape
                         (digest (password (gate (run (mount storage) before))))))
      as Hlen.
    unfold sha256 in Hh. rewrite Hh in Hlen.
    change (String.length PASS_HASH) with 64 in Hlen. lia.
Qed.

Lemma step_keeps_open w e :
  authenticated (gate w) = true ->
  sessionStorage w !! "vc-auth" = Some "true" ->
  authenticated (gate (step w e)) = true
  ∧ sessionStorage (step w e) !! "vc-auth" = Some "true".
Proof.
  intros Ha Hs. destruct e as [v| |]; simpl.
  - done.
  - unfold handleSubmit.
    destruct (String.eqb _ PASS_HASH); simpl; [|done].
    split; [done|]. by rewrite lookup_insert_eq.
  - by destruct (timers w).
Qed.

(** X17. After a submit with the right password the gate shows its
    children whatever happens next, the session storage holds the flag, and
    a gate mounted again on that storage is open at once. *)
Theorem gate_stays_open w events :
  sha256 (password (gate w)) = PASS_HASH ->
  let w' := run (step w Submit) events in
  render w' = Children
  ∧ sessionStorage w' !! "vc-auth" = Some "true"
  ∧ render (mount (sessionStorage w')) = Children.
Proof.
  intros Hh w'.
  assert (authenticated (gate w') = true
          ∧ sessionStorage w' !! "vc-auth" = Some "true") as [Ha Hs].
  { unfold w'. clear w'.
    assert (authenticated (gate (step w Submit)) = true
            ∧ sessionStorage (step w Submit) !! "vc-auth" = Some "true") as H0.
    { simpl. unfold handleSubmit.
      apply String.eqb_eq in Hh. rewrite Hh. simpl.
      split; [done|]. by rewrite lookup_insert_eq. }
    generalize dependent (step w Submit). clear w Hh.
    induction events as [|e events IH]; intros w [Ha Hs]; [done|].
    rewrite run_cons. by apply IH, step_keeps_open. }
  unfold render. rewrite Ha. split; [done|]. split; [done|].
  simpl. by rewrite Hs, bool_decide_eq_true_2.
Qed.

(** X18. As long as no submit finds the hash of the password equal to
    [PASS_HASH], whatever is typed and submitted changes neither what the
    gate shows as authenticated nor the session storage. *)
Theorem wrong_passwords_write_nothing w events :
  (forall before after,
     events = before ++ Submit :: after ->
     sha256 (password (gate (run w before))) ≠ PASS_HASH) ->
  authenticated (gate (run w events)) = authenticated (gate w)
  ∧ sessionStorage (run w events) = sessionStorage w.
Proof.
  revert w. induction events as [|e events IH]; intros w Hno; [done|].
  rewrite run_cons.
  assert (authenticated (gate (step w e)) = authenticated (gate w)
          ∧ sessionStorage (step w e) = sessionStorage w) as [Ha Hs].
  { destruct e as [v| |]; simpl.
    - done.
    - unfold handleSubmit.
      assert (sha256 (password (gate w)) ≠ PASS_HASH) as Hh
        by (by apply (Hno [] events)).
      apply String.eqb_neq in Hh. by rewrite Hh.
    - by destruct (timers w). }
  rewrite <- Ha, <- Hs. apply IH. intros before after ->.
  by apply (Hno (e :: before) after).
Qed.

(** X19. Whenever the gate shows the wrong-password message a timer is
    pending, and the message is gone once a timer has run. *)
Theorem error_has_pending_timer storage events :
  let w := run (mount storage) events in
  error (gate w) = true ->
  0 < timers w ∧ error (gate (step w Timeout)) = false.
Proof.
  assert (forall w,
    (error (gate w) = true -> 0 < timers w) ->
    error (gate (run w events)) = true -> 0 < timers (run w events)) as Hgen.
  { induction events as [|e events IH]; intros w Hw; [done|].
    rewrite run_cons. apply IH.
    destruct e as [v| |]; simpl.
    - done.
    - unfold handleSubmit.
      destruct (String.eqb _ PASS_HASH); simpl; [done | lia].
    - destruct (timers w) as [|n] eqn:Ht; [by rewrite Ht in * | done]. }
  intros w He.
  assert (0 < timers w) as Ht by (apply Hgen; done).
  split; [done|]. simpl. destruct (timers w); [lia | done].
Qed.

End GateFacts.

(** ** Further scenarios, evaluated *)

Section MoreScenarios.

Import Scenario Sample.

Local Abbreviation url := bridgeUrl.
Local Abbreviation secret := bridgeSecret.

Lemma all_handled_like_V1_witness :
  (forall id, id ∈ callIds twice -> id ∈ ({[callId createTask t0]} : gset string))
  ∧ logEffect url secret {[callId createTask t0]} twice
    = {| entries := logEffectV1 twice;
         handledCalls := {[callId createTask t0]};
         started := [] |}.
Proof.
  assert (forall id, id ∈ callIds twice ->
                     id ∈ ({[callId createTask t0]} : gset string)) as H.
  { intros id Hid.
    change (callIds twice) with [callId createTask t0; callId createTask t0] in Hid.
    set_solver. }
  split; [exact H|].
  exact (all_handled_like_V1 url secret {[callId createTask t0]} twice H).
Defined.

Lemma entries_provenance_witness :
  textEntry user 1 "hello"
    ∈ entries (logEffect url secret ∅ [userTurn 1 [textPart "hello"]])
  ∧ ∃ log, log ∈ [userTurn 1 [textPart "hello"]]
           ∧ (textEntry user 1 "hello" ∈ textEntries log
              ∨ ∃ fc, fc ∈ functionCalls log
                      ∧ textEntry user 1 "hello" = announcement fc (date log)).
Proof.
  assert (textEntry user 1 "hello"
            ∈ entries (logEffect url secret ∅ [userTurn 1 [textPart "hello"]]))
    as H by (by left).
  split; [exact H|].
  exact (entries_provenance url secret ∅ [userTurn 1 [textPart "hello"]]
           (textEntry user 1 "hello") H).
Defined.

Lemma console_quiet_without_send_message_witness :
  (forall logs log fc,
     RunEffect logs ∈ [RunEffect twice; SettleCall 0 unreachable] ->
     log ∈ logs -> fc ∈ functionCalls log -> name fc ≠ "send_message")
  ∧ console (exec url secret mounted [RunEffect twice; SettleCall 0 unreachable])
    = [].
Proof.
  assert (forall logs log fc,
     RunEffect logs ∈ [RunEffect twice; SettleCall 0 unreachable] ->
     log ∈ logs -> fc ∈ functionCalls log -> name fc ≠ "send_message") as H.
  { intros logs log fc Hlogs Hlog Hfc.
    apply elem_of_cons in Hlogs as [[= ->]|Hlogs];
      [|apply list_elem_of_singleton in Hlogs; discriminate Hlogs].
    assert (log = serverTurn t0 [callPart createTask]) as ->.
    { unfold twice in Hlog. apply elem_of_cons in Hlog as [->|Hlog]; [done|].
      by apply list_elem_of_singleton in Hlog. }
    change (functionCalls (serverTurn t0 [callPart createTask]))
      with [createTask] in Hfc.
    apply list_elem_of_singleton in Hfc as ->. done. }
  split; [exact H|].
  exact (console_quiet_without_send_message url secret
           [RunEffect twice; SettleCall 0 unreachable] H).
Defined.

Lemma action_body_determines_call_witness :
  body (actionRequest url secret "search" [("query", "milk")])
  = body (actionRequest url secret "search" [("query", "milk")])
  ∧ "search" = "search"
  ∧ [("query", "milk")] = [("query", "milk")].
Proof.
  split; [reflexivity|].
  exact (action_body_determines_call url secret "search" [("query", "milk")]
           "search" [("query", "milk")] eq_refl).
Defined.


Lemma download_name_safe_witness :
  Transcript.downloaded (Transcript.saveTranscript isoClock localClock 0 [hello])
  = Some {| Transcript.blobType := "text/markdown";
            Transcript.download := "2026-02-01T09-30.md";
            Transcript.content :=
              Transcript.joinLines
                (Transcript.transcriptLines isoClock localClock 0 [hello]) |}
  ∧ String.length "2026-02-01T09-30.md" <= 19.
Proof.
  split; [reflexivity|].
  exact (proj2 (proj2 (proj2
    (download_name_safe isoClock localClock 0 [hello]
       {| Transcript.blobType := "text/markdown";
          Transcript.download := "2026-02-01T09-30.md";
          Transcript.content :=
            Transcript.joinLines
              (Transcript.transcriptLines isoClock localClock 0 [hello]) |}
       eq_refl)))).
Defined.

Lemma transcript_lines_in_order_witness :
  [hello] !! 0 = Some hello
  ∧ Transcript.transcriptLines isoClock localClock 0 [hello] !! 6
    = Some "**Dara** (09:30:15): hello".
Proof.
  split; [reflexivity|].
  exact (proj1 (proj2 (transcript_lines_in_order isoClock localClock 0 [hello])
                  0 hello eq_refl)).
Defined.

Lemma hex_two_digits_per_byte_witness :
  "b"%char ∈ list_ascii_of_string (PasswordGate.hex [ascii_of_N 182])
  ∧ is_Some (hexValue "b").
Proof.
  assert ("b"%char ∈ list_ascii_of_string (PasswordGate.hex [ascii_of_N 182]))
    as H by (by left).
  split; [exact H|].
  exact (proj2 (hex_two_digits_per_byte [ascii_of_N 182]) "b"%char H).
Defined.

Lemma hex_injective_witness :
  PasswordGate.hex passBytes = PasswordGate.hex passBytes
  ∧ passBytes = passBytes.
Proof.
  split; [reflexivity|]. exact (hex_injective passBytes passBytes eq_refl).
Defined.

Lemma gate_opens_only_on_hash_witness :
  PasswordGate.render
    (PasswordGate.run toyDigest (PasswordGate.mount ∅)
       [PasswordGate.Change "open sesame"; PasswordGate.Submit])
  = PasswordGate.Children
  ∧ ((∅ : gmap string string) !! "vc-auth" = Some "true"
     ∨ ∃ before after,
         [PasswordGate.Change "open sesame"; PasswordGate.Submit]
         = before ++ PasswordGate.Submit :: after
         ∧ PasswordGate.sha256 toyDigest
             (PasswordGate.password
                (PasswordGate.gate
                   (PasswordGate.run toyDigest (PasswordGate.mount ∅) before)))
           = PasswordGate.PASS_HASH
         ∧ length (toyDigest
                     (PasswordGate.password
                        (PasswordGate.gate
                           (PasswordGate.run toyDigest (PasswordGate.mount ∅)
                              before)))) = 32).
Proof.
  split; [reflexivity|].
  exact (gate_opens_only_on_hash toyDigest ∅
           [PasswordGate.Change "open sesame"; PasswordGate.Submit] eq_refl).
Defined.

Lemma gate_stays_open_witness :
  PasswordGate.sha256 toyDigest
    (PasswordGate.password
       (PasswordGate.gate
          (PasswordGate.step toyDigest (PasswordGate.mount ∅)
             (PasswordGate.Change "open sesame"))))
  = PasswordGate.PASS_HASH
  ∧ PasswordGate.render
      (PasswordGate.run toyDigest
         (PasswordGate.step toyDigest
            (PasswordGate.step toyDigest (PasswordGate.mount ∅)
               (PasswordGate.Change "open sesame"))
            PasswordGate.Submit)
         [PasswordGate.Change "x"; PasswordGate.Submit; PasswordGate.Timeout])
    = PasswordGate.Children.
Proof.
  split; [reflexivity|].
  exact (proj1 (gate_stays_open toyDigest
                  (PasswordGate.step toyDigest (PasswordGate.mount ∅)
                     (PasswordGate.Change "open sesame"))
                  [PasswordGate.Change "x"; PasswordGate.Submit;
                   PasswordGate.Timeout]
                  eq_refl)).
Defined.

Lemma wrong_passwords_write_nothing_witness :
  (forall before after,
     [PasswordGate.Change "guess"; PasswordGate.Submit]
     = before ++ PasswordGate.Submit :: after ->
     PasswordGate.sha256 toyDigest
       (PasswordGate.password
          (PasswordGate.gate
             (PasswordGate.run toyDigest (PasswordGate.mount ∅) before)))
     ≠ PasswordGate.PASS_HASH)
  ∧ PasswordGate.authenticated
      (PasswordGate.gate
         (PasswordGate.run toyDigest (PasswordGate.mount ∅)
            [PasswordGate.Change "guess"; PasswordGate.Submit]))
    = false.
Proof.
  assert (forall before after,
     [PasswordGate.Change "guess"; PasswordGate.Submit]
     = before ++ PasswordGate.Submit :: after ->
     PasswordGate.sha256 toyDigest
       (PasswordGate.password
          (PasswordGate.gate
             (PasswordGate.run toyDigest (PasswordGate.mount ∅) before)))
     ≠ PasswordGate.PASS_HASH) as H.
  { intros [|e1 [|e2 before]] after Heq; simpl in Heq; simplify_eq;
      first [ by destruct before
            | intros Hc; vm_compute in Hc; discriminate Hc ]. }
  split; [exact H|].
  exact (proj1 (wrong_passwords_write_nothing toyDigest (PasswordGate.mount ∅)
                  [PasswordGate.Change "guess"; PasswordGate.Submit] H)).
Defined.

Lemma error_has_pending_timer_witness :
  PasswordGate.error
    (PasswordGate.gate
       (PasswordGate.run toyDigest (PasswordGate.mount ∅) [PasswordGate.Submit]))
  = true
  ∧ 0 < PasswordGate.timers
          (PasswordGate.run toyDigest (PasswordGate.mount ∅) [PasswordGate.Submit]).
Proof.
  split; [reflexivity|].
  exact (proj1 (error_has_pending_timer toyDigest ∅ [PasswordGate.Submit] eq_refl)).
Defined.

End MoreScenarios.
